(** * gopi application framework: module list, instance builder, runner, teardown

    A shallow embedding of [app.go] (package [gopi]): [NewAppConfig],
    [NewAppInstance], [AppInstance.Run], [AppInstance.Close],
    [AppendModulesByName], [appendModules], [inModules],
    [setModuleInstance] and [getTestlessArguments].

    Conventions of the embedding.
    - A [*Module] is an address ([ModuleRef]); the descriptors live in a heap
      [ModuleRef -> option Module], so [module == other] is equality of
      addresses, as in Go.  An address the heap does not hold is a nil or
      dangling pointer: dereferencing it panics.
    - A Go interface value that may be nil is an [option].
    - Calls that leave [app.go] (hooks, [Driver.Close], the logger) and the
      channel operations of [Run] are recorded, in the order they happen, in
      a list of [event]s.
    - A run-time panic (a method call on a nil interface, a nil pointer
      dereference) is the outcome [Panic]. *)

From stdpp Require Import gmap strings list.

Set Default Proof Using "Type".

Local Open Scope string_scope.
Local Open Scope list_scope.
Local Open Scope nat_scope.

(** ** Capability types *)

(** Modelled from the spec: the enumeration [ModuleType] (the closed set of
    capability-type tags of a module descriptor), which is declared in
    another file of the package.  The constructors below are the constants
    [app.go] refers to; every other value of the enumeration is a
    [MODULE_TYPE_UNNAMED]. *)
Inductive ModuleType : Type :=
| MODULE_TYPE_NONE
| MODULE_TYPE_OTHER
| MODULE_TYPE_LOGGER
| MODULE_TYPE_HARDWARE
| MODULE_TYPE_DISPLAY
| MODULE_TYPE_GRAPHICS
| MODULE_TYPE_FONTS
| MODULE_TYPE_LAYOUT
| MODULE_TYPE_GPIO
| MODULE_TYPE_I2C
| MODULE_TYPE_SPI
| MODULE_TYPE_TIMER
| MODULE_TYPE_LIRC
| MODULE_TYPE_INPUT
| MODULE_TYPE_SERVICE
| MODULE_TYPE_CLIENT
| MODULE_TYPE_UNNAMED (n : nat).

#[global] Instance ModuleType_eq_dec : EqDecision ModuleType.
Proof. solve_decision. Defined.

Definition ModuleType_to_nat (t : ModuleType) : nat :=
  match t with
  | MODULE_TYPE_NONE => 0
  | MODULE_TYPE_OTHER => 1
  | MODULE_TYPE_LOGGER => 2
  | MODULE_TYPE_HARDWARE => 3
  | MODULE_TYPE_DISPLAY => 4
  | MODULE_TYPE_GRAPHICS => 5
  | MODULE_TYPE_FONTS => 6
  | MODULE_TYPE_LAYOUT => 7
  | MODULE_TYPE_GPIO => 8
  | MODULE_TYPE_I2C => 9
  | MODULE_TYPE_SPI => 10
  | MODULE_TYPE_TIMER => 11
  | MODULE_TYPE_LIRC => 12
  | MODULE_TYPE_INPUT => 13
  | MODULE_TYPE_SERVICE => 14
  | MODULE_TYPE_CLIENT => 15
  | MODULE_TYPE_UNNAMED n => 16 + n
  end.

Definition ModuleType_of_nat (k : nat) : ModuleType :=
  match k with
  | 0 => MODULE_TYPE_NONE
  | 1 => MODULE_TYPE_OTHER
  | 2 => MODULE_TYPE_LOGGER
  | 3 => MODULE_TYPE_HARDWARE
  | 4 => MODULE_TYPE_DISPLAY
  | 5 => MODULE_TYPE_GRAPHICS
  | 6 => MODULE_TYPE_FONTS
  | 7 => MODULE_TYPE_LAYOUT
  | 8 => MODULE_TYPE_GPIO
  | 9 => MODULE_TYPE_I2C
  | 10 => MODULE_TYPE_SPI
  | 11 => MODULE_TYPE_TIMER
  | 12 => MODULE_TYPE_LIRC
  | 13 => MODULE_TYPE_INPUT
  | 14 => MODULE_TYPE_SERVICE
  | 15 => MODULE_TYPE_CLIENT
  | S (S (S (S (S (S (S (S (S (S (S (S (S (S (S (S n))))))))))))))) =>
      MODULE_TYPE_UNNAMED n
  end.

Lemma ModuleType_of_to_nat (t : ModuleType) :
  ModuleType_of_nat (ModuleType_to_nat t) = t.
Proof. destruct t; reflexivity. Qed.

#[global] Instance ModuleType_countable : Countable ModuleType :=
  inj_countable' ModuleType_to_nat ModuleType_of_nat ModuleType_of_to_nat.

(** The interfaces [setModuleInstance] casts a driver to, one for each
    convenience field of [AppInstance]. *)
Inductive Interface : Type :=
| IfLogger
| IfHardware
| IfDisplay
| IfSurfaceManager
| IfFontManager
| IfLayout
| IfGPIO
| IfI2C
| IfSPI
| IfTimer
| IfLIRC
| IfInputManager.

#[global] Instance Interface_eq_dec : EqDecision Interface.
Proof. solve_decision. Defined.

(** ** Pointers, errors, drivers *)

(** The address of a module descriptor. *)
Definition ModuleRef : Type := nat.

(** Go [error] values.  Those that [app.go] builds with [fmt.Errorf] keep
    their arguments; [ErrAppError] is the package's sentinel; [ErrExternal]
    is an error that comes from a hook, a driver, the flag parser or a
    task. *)
Inductive error : Type :=
| ErrAppError
| ErrDuplicateName (name : string)
| ErrDuplicateType (t : ModuleType)
| ErrCannotCast (module : ModuleRef) (iface : Interface)
| ErrNewReturnNil (name : string)
| ErrExternal (msg : string).

#[global] Instance error_eq_dec : EqDecision error.
Proof. solve_decision. Defined.

(** The text of the errors whose format arguments are strings. *)
Definition error_text (e : error) : option string :=
  match e with
  | ErrDuplicateName name =>
      Some ("setModuleInstance: Duplicate module with name '" +:+ name +:+ "'")
  | ErrNewReturnNil name => Some (name +:+ ": New: return nil")
  | ErrExternal msg => Some msg
  | _ => None
  end.

(** Modelled from the spec: the interface [Driver] (an opaque handle with a
    uniform close operation), which is declared in another file of the
    package.  A non-nil [Driver] is its identity, what its [Close] method
    returns, and the interfaces a type assertion on it succeeds for. *)
Record Driver : Type := {
  drv_id : nat;
  drv_close : option error;
  drv_implements : list Interface
}.

#[global] Instance Driver_eq_dec : EqDecision Driver.
Proof. solve_decision. Defined.

(** [_, ok = driver.(I)] *)
Definition implements (d : Driver) (i : Interface) : bool :=
  bool_decide (i ∈ drv_implements d).

(** ** Effects *)

Inductive LogLevel : Type := LDebug | LDebug2 | LError.

(** The log lines of [app.go], by call site. *)
Inductive LogLine : Type :=
| LogOpenModules (modules : list ModuleRef)
| LogOpen
| LogModuleNew (module : ModuleRef)
| LogModuleCloseError (e : error)
| LogClose
| LogCloseDriver (d : Driver)
| LogCloseError (e : error)
| LogMainThreadDone
| LogSendingDone (i n : nat)
| LogWaitingForTasks
| LogAllTasksFinished
| LogBackgroundError (e : error) (i : nat).

Inductive event : Type :=
| EvNew (module : ModuleRef) (driver : option Driver) (err : option error)
| EvClose (d : Driver) (err : option error)
| EvRunHook (module : ModuleRef) (driver : option Driver) (err : option error)
| EvLog (lvl : LogLevel) (line : LogLine)
| EvStderr (e : error)
| EvMainSignal
| EvSendDone (i : nat)
| EvMainReturn (err : option error)
| EvBackgroundReturn (i : nat) (err : option error)
| EvRunReturn (err : option error)
| EvPanic.

Inductive result (A : Type) : Type :=
| Ok (a : A)
| Err (e : error)
| Panic.
Arguments Ok {A} a.
Arguments Err {A} e.
Arguments Panic {A}.

(** ** The flag set

    [Flags] is implemented in another file of the package; [app.go] uses the
    operations below. *)
Class FlagsOps : Type := {
  Flags : Type;
  NewFlags : string -> Flags;
  FlagBool : Flags -> string -> bool -> string -> Flags;
  Parsed : Flags -> bool;
  Parse : Flags -> list string -> Flags * option error;
  GetBool : Flags -> string -> bool * bool;
  FlagsName : Flags -> string
}.

Section App.
Context `{FO : FlagsOps}.

(** ** Data model *)

(** [type AppConfig struct].  [AppFlags] is a [*Flags]: [None] is nil. *)
Record AppConfig : Type := {
  Modules : list ModuleRef;
  AppArgs : list string;
  AppFlags : option Flags;
  Debug : bool;
  Verbose : bool;
  Service : string
}.

(** [AppConfig{}] *)
Definition AppConfig_zero : AppConfig :=
  {| Modules := []; AppArgs := []; AppFlags := None;
     Debug := false; Verbose := false; Service := "" |}.

(** [type AppInstance struct], without [sigchan].  The flag set of the
    instance is [this_AppFlags] (the field [AppFlags] of the struct). *)
Record AppInstance : Type := {
  this_AppFlags : option Flags;
  Logger : option Driver;
  Hardware : option Driver;
  Display : option Driver;
  Graphics : option Driver;
  Input : option Driver;
  Fonts : option Driver;
  Layout : option Driver;
  Timer : option Driver;
  GPIO : option Driver;
  I2C : option Driver;
  SPI : option Driver;
  LIRC : option Driver;
  debug : bool;
  verbose : bool;
  service : string;
  modules : list ModuleRef;
  byname : gmap string Driver;
  bytype : gmap ModuleType Driver;
  byorder : list Driver
}.

(** Modelled from the spec: the module descriptor [type Module struct]
    (name, capability type, configuration hook, construction hook, run
    hook), which is declared in another file of the package; these are the
    fields [app.go] reads.  A hook that is nil is [None].  [Config]
    receives [&config] and may update it; [New] and [Run] receive the
    instance and read it. *)
Record Module : Type := {
  Name : string;
  Type_ : ModuleType;
  Config : option (AppConfig -> AppConfig);
  New : option (AppInstance -> option Driver * option error);
  Run : option (AppInstance -> option Driver -> option error)
}.

(** The descriptors behind the [*Module] pointers. *)
Variable heap : ModuleRef -> option Module.

(** ** Field updates of [AppInstance] *)

Definition set_tables (bn : gmap string Driver) (bt : gmap ModuleType Driver)
    (bo : list Driver) (this : AppInstance) : AppInstance :=
  {| this_AppFlags := this_AppFlags this;
     Logger := Logger this; Hardware := Hardware this;
     Display := Display this; Graphics := Graphics this;
     Input := Input this; Fonts := Fonts this; Layout := Layout this;
     Timer := Timer this; GPIO := GPIO this; I2C := I2C this;
     SPI := SPI this; LIRC := LIRC this;
     debug := debug this; verbose := verbose this; service := service this;
     modules := modules this;
     byname := bn; bytype := bt; byorder := bo |}.

Definition set_byname (bn : gmap string Driver) (this : AppInstance) :=
  set_tables bn (bytype this) (byorder this) this.
Definition set_bytype (bt : gmap ModuleType Driver) (this : AppInstance) :=
  set_tables (byname this) bt (byorder this) this.
Definition set_byorder (bo : list Driver) (this : AppInstance) :=
  set_tables (byname this) (bytype this) bo this.

(** The convenience field that holds a driver cast to interface [i]. *)
Definition field (i : Interface) (this : AppInstance) : option Driver :=
  match i with
  | IfLogger => Logger this
  | IfHardware => Hardware this
  | IfDisplay => Display this
  | IfSurfaceManager => Graphics this
  | IfFontManager => Fonts this
  | IfLayout => Layout this
  | IfGPIO => GPIO this
  | IfI2C => I2C this
  | IfSPI => SPI this
  | IfTimer => Timer this
  | IfLIRC => LIRC this
  | IfInputManager => Input this
  end.

Definition set_field (i : Interface) (v : option Driver) (this : AppInstance)
    : AppInstance :=
  let pick (j : Interface) := if decide (i = j) then v else field j this in
  {| this_AppFlags := this_AppFlags this;
     Logger := pick IfLogger; Hardware := pick IfHardware;
     Display := pick IfDisplay; Graphics := pick IfSurfaceManager;
     Input := pick IfInputManager; Fonts := pick IfFontManager;
     Layout := pick IfLayout; Timer := pick IfTimer; GPIO := pick IfGPIO;
     I2C := pick IfI2C; SPI := pick IfSPI; LIRC := pick IfLIRC;
     debug := debug this; verbose := verbose this; service := service this;
     modules := modules this;
     byname := byname this; bytype := bytype this; byorder := byorder this |}.

(** ** The module list *)

(** [inModules]: pointer equality against each element. *)
Fixpoint inModules (modules : list ModuleRef) (other : ModuleRef) : bool :=
  match modules with
  | [] => false
  | module :: rest =>
      if decide (module = other) then true else inModules rest other
  end.

(** The loop of [appendModules]. *)
Fixpoint appendModules_loop (modules others : list ModuleRef)
    : list ModuleRef :=
  match others with
  | [] => modules
  | other :: rest =>
      if inModules modules other then appendModules_loop modules rest
      else appendModules_loop (modules ++ [other]) rest
  end.

Definition appendModules (modules others : list ModuleRef)
    : list ModuleRef :=
  if decide (length others = 0) then modules
  else appendModules_loop modules others.

(** The dependency resolver of the package, implemented in another file. *)
Variable ModuleWithDependencies : string -> list ModuleRef * option error.

(** [AppendModulesByName]; a nil slice and an empty one are both [[]]. *)
Fixpoint AppendModulesByName (modules : list ModuleRef) (names : list string)
    : list ModuleRef * option error :=
  match names with
  | [] => (modules, None)
  | name :: rest =>
      match ModuleWithDependencies name with
      | (_, Some err) => ([], Some err)
      | (module_array, None) =>
          AppendModulesByName (appendModules modules module_array) rest
      end
  end.

(** ** Registering a driver *)

(** The types for which [setModuleInstance] fills the by-type map. *)
Definition singleton_type (t : ModuleType) : bool :=
  bool_decide (t ≠ MODULE_TYPE_NONE ∧ t ≠ MODULE_TYPE_OTHER ∧
               t ≠ MODULE_TYPE_SERVICE ∧ t ≠ MODULE_TYPE_CLIENT).

(** The [switch module.Type] of [setModuleInstance]: the interface the
    driver is cast to. *)
Definition interface_of_type (t : ModuleType) : option Interface :=
  match t with
  | MODULE_TYPE_LOGGER => Some IfLogger
  | MODULE_TYPE_HARDWARE => Some IfHardware
  | MODULE_TYPE_DISPLAY => Some IfDisplay
  | MODULE_TYPE_GRAPHICS => Some IfSurfaceManager
  | MODULE_TYPE_FONTS => Some IfFontManager
  | MODULE_TYPE_LAYOUT => Some IfLayout
  | MODULE_TYPE_GPIO => Some IfGPIO
  | MODULE_TYPE_I2C => Some IfI2C
  | MODULE_TYPE_SPI => Some IfSPI
  | MODULE_TYPE_TIMER => Some IfTimer
  | MODULE_TYPE_LIRC => Some IfLIRC
  | MODULE_TYPE_INPUT => Some IfInputManager
  | _ => None
  end.

(** The tail of [setModuleInstance], from the append to [byorder] on.  A
    failed type assertion leaves nil in the field. *)
Definition setModuleInstance_tail (p : ModuleRef) (module : Module)
    (driver : Driver) (this : AppInstance) : AppInstance * option error :=
  let this := set_byorder (byorder this ++ [driver]) this in
  match interface_of_type (Type_ module) with
  | Some i =>
      if implements driver i then (set_field i (Some driver) this, None)
      else (set_field i None this, Some (ErrCannotCast p i))
  | None => (this, None)
  end.

(** [setModuleInstance]: the instance after the call and the error
    returned.  [p] is the address of [module]. *)
Definition setModuleInstance (p : ModuleRef) (module : Module)
    (driver : Driver) (this : AppInstance) : AppInstance * option error :=
  match byname this !! Name module with
  | Some _ => (this, Some (ErrDuplicateName (Name module)))
  | None =>
      let this := set_byname (<[Name module := driver]> (byname this)) this in
      if singleton_type (Type_ module) then
        match bytype this !! Type_ module with
        | Some _ => (this, Some (ErrDuplicateType (Type_ module)))
        | None =>
            let this :=
              set_bytype (<[Type_ module := driver]> (bytype this)) this in
            setModuleInstance_tail p module driver this
        end
      else setModuleInstance_tail p module driver this
  end.

(** ** Building the instance *)

Definition emit {A : Type} (evs : list event) (k : list event * A)
    : list event * A :=
  (evs ++ k.1, k.2).

(** The loop of [NewAppInstance] over [config.Modules]: [all] is
    [config.Modules], [once] tells whether the [sync.Once] has fired. *)
Fixpoint build (all rest : list ModuleRef) (once : bool)
    (this : AppInstance) : list event * result AppInstance :=
  match rest with
  | [] =>
      if once then ([], Ok this)
      else match Logger this with
           | None => ([], Panic)
           | Some _ => ([EvLog LDebug LogOpen], Ok this)
           end
  | p :: rest =>
      let has_logger := bool_decide (is_Some (Logger this)) in
      emit (if has_logger && negb once
            then [EvLog LDebug (LogOpenModules all)] else [])
      (let once := once || has_logger in
       match heap p with
       | None => ([], Panic)
       | Some module =>
           match New module with
           | None => build all rest once this
           | Some new =>
               emit (if has_logger then [EvLog LDebug2 (LogModuleNew p)]
                     else [])
               (let '(driver, err) := new this in
                emit [EvNew p driver err]
                match err, driver with
                | Some e, _ => ([], Err e)
                | None, None => ([], Err (ErrNewReturnNil (Name module)))
                | None, Some d =>
                    let '(this, serr) := setModuleInstance p module d this in
                    match serr with
                    | None => build all rest once this
                    | Some e =>
                        emit [EvClose d (drv_close d)]
                        match drv_close d with
                        | None => ([], Err e)
                        | Some ce =>
                            match Logger this with
                            | None => ([], Panic)
                            | Some _ =>
                                ([EvLog LError (LogModuleCloseError ce)],
                                 Err e)
                            end
                        end
                    end
                end)
           end
       end)
  end.

(** [new(AppInstance)] with the fields [NewAppInstance] sets before its
    loop. *)
Definition new_instance (config : AppConfig) (flags : Flags)
    : AppInstance :=
  let Debug' := match GetBool flags "debug" with
                | (v, true) => v
                | (_, false) => Debug config
                end in
  let Verbose' := match GetBool flags "verbose" with
                  | (v, true) => v
                  | (_, false) => Verbose config
                  end in
  {| this_AppFlags := Some flags;
     Logger := None; Hardware := None; Display := None; Graphics := None;
     Input := None; Fonts := None; Layout := None; Timer := None;
     GPIO := None; I2C := None; SPI := None; LIRC := None;
     debug := Debug'; verbose := Verbose';
     service := if decide (Service config = "") then FlagsName flags
                else Service config;
     modules := Modules config;
     byname := ∅; bytype := ∅; byorder := [] |}.

(** [NewAppInstance] *)
Definition NewAppInstance (config : AppConfig)
    : list event * result AppInstance :=
  match AppFlags config with
  | None => ([], Err ErrAppError)
  | Some flags =>
      match (if Parsed flags then (flags, None)
             else Parse flags (AppArgs config)) with
      | (_, Some err) => ([], Err err)
      | (flags, None) =>
          build (Modules config) (Modules config) false
                (new_instance config flags)
      end
  end.

(** ** Teardown *)

(** The loop of [Close]: [i] counts down from [len(this.byorder)]. *)
Fixpoint close_loop (drivers : list Driver) (i : nat)
    : list event * result unit :=
  match i with
  | 0 => ([], Ok tt)
  | S j =>
      match drivers !! j with
      | None => ([], Panic)
      | Some driver =>
          emit (EvLog LDebug2 (LogCloseDriver driver)
                :: EvClose driver (drv_close driver)
                :: match drv_close driver with
                   | Some err => [EvLog LError (LogCloseError err)]
                   | None => []
                   end)
               (close_loop drivers j)
      end
  end.

(** The instance after [Close] has cleared its references. *)
Definition cleared (this : AppInstance) : AppInstance :=
  {| this_AppFlags := this_AppFlags this;
     Logger := None; Hardware := None; Display := None; Graphics := None;
     Input := None; Fonts := None; Layout := None; Timer := None;
     GPIO := None; I2C := None; SPI := None; LIRC := None;
     debug := debug this; verbose := verbose this; service := service this;
     modules := modules this;
     byname := ∅; bytype := ∅; byorder := [] |}.

(** [AppInstance.Close]: the events, and on return the instance left
    behind with the error returned. *)
Definition AppInstance_Close (this : AppInstance)
    : list event * result (AppInstance * option error) :=
  match Logger this with
  | None => ([], Panic)
  | Some _ =>
      emit [EvLog LDebug LogClose]
      match close_loop (byorder this) (length (byorder this)) with
      | (evs, Ok _) => (evs, Ok (cleared this, None))
      | (evs, Err e) => (evs, Err e)
      | (evs, Panic) => (evs, Panic)
      end
  end.

(** ** Building the configuration *)

Definition DEFAULT_RPC_SERVICE : string := "gopi".

(** [getTestlessArguments]: [String.prefix] is [strings.HasPrefix] with the
    arguments swapped. *)
Fixpoint getTestlessArguments (input : list string) : list string :=
  match input with
  | [] => []
  | arg :: rest =>
      if String.prefix "-test." arg then getTestlessArguments rest
      else arg :: getTestlessArguments rest
  end.

(** [path.Base] of the Go library. *)
Variable path_Base : string -> string.

(** The last loop of [NewAppConfig]: it ranges over the module list as it
    is when the loop starts and hands [&config] to each [Config] hook. *)
Fixpoint config_hooks (modules : list ModuleRef) (config : AppConfig)
    : result AppConfig :=
  match modules with
  | [] => Ok config
  | p :: rest =>
      match heap p with
      | None => Panic
      | Some module =>
          match Config module with
          | None => config_hooks rest config
          | Some hook => config_hooks rest (hook config)
          end
      end
  end.

(** [NewAppConfig]: [os.Args] is [arg0 :: args]. *)
Definition NewAppConfig (arg0 : string) (args : list string)
    (modules : list string) : list event * result AppConfig :=
  match ModuleWithDependencies "logger" with
  | (_, Some err) => ([EvStderr err], Ok AppConfig_zero)
  | (logger_modules, None) =>
      match AppendModulesByName logger_modules modules with
      | (_, Some err) => ([EvStderr err], Ok AppConfig_zero)
      | (all_modules, None) =>
          let flags := NewFlags (path_Base arg0) in
          let flags := FlagBool flags "debug" false "Set debugging mode" in
          let flags := FlagBool flags "verbose" false "Verbose logging" in
          ([], config_hooks all_modules
                 {| Modules := all_modules;
                    AppArgs := getTestlessArguments args;
                    AppFlags := Some flags;
                    Debug := false;
                    Verbose := false;
                    Service := DEFAULT_RPC_SERVICE |})
      end
  end.

(** The contract of the [Config] hooks: a hook registers flags and leaves
    the module list of the configuration alone. *)
Definition hooks_keep_modules : Prop :=
  ∀ (p : ModuleRef) (module : Module) (hook : AppConfig -> AppConfig)
    (config : AppConfig),
    heap p = Some module → Config module = Some hook →
    Modules (hook config) = Modules config.

(** ** Running tasks *)

(** The first loop of [Run]: the [Run] hook of each module, with the driver
    registered under the module's name (nil when there is none). *)
Fixpoint run_hooks (this : AppInstance) (modules : list ModuleRef)
    : list event * result unit :=
  match modules with
  | [] => ([], Ok tt)
  | p :: rest =>
      match heap p with
      | None => ([], Panic)
      | Some module =>
          match Run module with
          | None => run_hooks this rest
          | Some run =>
              let driver := byname this !! Name module in
              let err := run this driver in
              emit [EvRunHook p driver err]
                   match err with
                   | Some e => ([], Err e)
                   | None => run_hooks this rest
                   end
          end
      end
  end.

(** What a task does next, as far as [Run] can tell: a step of its own, an
    operation on the channel [Run] gave it (for the main task a send on
    [channels[0]], for background task [i] a receive on [channels[i+1]]), or
    its return. *)
Inductive move : Type :=
| Tau (next : nat)
| Comm (next : nat)
| Return (err : option error).

(** A task function applied to the instance: a control point to start from
    and, at each control point, the moves the task is ready for (several
    for a [select]). *)
Record Task : Type := {
  task_start : nat;
  task_moves : nat -> list move
}.

Definition MainTask : Type := AppInstance -> Task.
Definition BackgroundTask : Type := AppInstance -> Task.

Inductive thread : Type :=
| Running (pc : nat)
| Returned (err : option error).

(** The goroutine [Run] starts last: blocked on [<-channels[0]], at the
    head of its loop with index [i], blocked on [channels[i+1] <- DONE], or
    finished. *)
Inductive coordinator : Type :=
| CoWaitMain
| CoLoop (i : nat)
| CoSend (i : nat)
| CoExit.

Record run_state : Type := {
  rs_main : thread;
  rs_background : list thread;
  rs_coordinator : coordinator;
  rs_crashed : bool;
  rs_result : option (option error)
}.

(** What the scheduler lets happen next: move [k] of the main task, move
    [k] of background task [i], a step of the coordinator, or the return of
    [wg.Wait()] and then of [Run]. *)
Inductive choice : Type :=
| RunMain (k : nat)
| RunBackground (i k : nat)
| RunCoordinator
| RunWait.

Definition is_returned (t : thread) : bool :=
  match t with Returned _ => true | Running _ => false end.

Section Tasks.
Variable this : AppInstance.
Variable main_task : Task.
Variable background_tasks : list Task.

Definition has_logger : bool := bool_decide (is_Some (Logger this)).

Definition log_if_logger (lvl : LogLevel) (line : LogLine) : list event :=
  if has_logger then [EvLog lvl line] else [].

Definition initial : run_state :=
  {| rs_main := Running (task_start main_task);
     rs_background := (fun t => Running (task_start t)) <$> background_tasks;
     rs_coordinator := CoWaitMain;
     rs_crashed := false;
     rs_result := None |}.

Definition step_main (k : nat) (st : run_state)
    : option (list event * run_state) :=
  match rs_main st with
  | Returned _ => None
  | Running pc =>
      match task_moves main_task pc !! k with
      | None => None
      | Some (Tau next) =>
          Some ([], {| rs_main := Running next;
                       rs_background := rs_background st;
                       rs_coordinator := rs_coordinator st;
                       rs_crashed := rs_crashed st;
                       rs_result := rs_result st |})
      | Some (Comm next) =>
          match rs_coordinator st with
          | CoWaitMain =>
              Some (EvMainSignal :: log_if_logger LDebug2 LogMainThreadDone,
                    {| rs_main := Running next;
                       rs_background := rs_background st;
                       rs_coordinator := CoLoop 0;
                       rs_crashed := rs_crashed st;
                       rs_result := rs_result st |})
          | _ => None
          end
      | Some (Return err) =>
          Some (EvMainReturn err ::
                (if decide (0 < length background_tasks)
                 then log_if_logger LDebug2 LogWaitingForTasks else []),
                {| rs_main := Returned err;
                   rs_background := rs_background st;
                   rs_coordinator := rs_coordinator st;
                   rs_crashed := rs_crashed st;
                   rs_result := rs_result st |})
      end
  end.

Definition step_background (i k : nat) (st : run_state)
    : option (list event * run_state) :=
  match background_tasks !! i, rs_background st !! i with
  | Some t, Some (Running pc) =>
      match task_moves t pc !! k with
      | None => None
      | Some (Tau next) =>
          Some ([], {| rs_main := rs_main st;
                       rs_background := <[i := Running next]> (rs_background st);
                       rs_coordinator := rs_coordinator st;
                       rs_crashed := rs_crashed st;
                       rs_result := rs_result st |})
      | Some (Comm next) =>
          match rs_coordinator st with
          | CoSend j =>
              if decide (j = i) then
                Some ([EvSendDone i],
                      {| rs_main := rs_main st;
                         rs_background :=
                           <[i := Running next]> (rs_background st);
                         rs_coordinator := CoLoop (S i);
                         rs_crashed := rs_crashed st;
                         rs_result := rs_result st |})
              else None
          | _ => None
          end
      | Some (Return err) =>
          Some (EvBackgroundReturn i err ::
                match err with
                | Some e => log_if_logger LError (LogBackgroundError e (i + 1))
                | None => []
                end,
                {| rs_main := rs_main st;
                   rs_background := <[i := Returned err]> (rs_background st);
                   rs_coordinator := rs_coordinator st;
                   rs_crashed := rs_crashed st;
                   rs_result := rs_result st |})
      end
  | _, _ => None
  end.

(** The loop of the coordinator logs through [this.Logger] without a nil
    check: with no logger the process panics there. *)
Definition step_coordinator (st : run_state)
    : option (list event * run_state) :=
  match rs_coordinator st with
  | CoLoop i =>
      if decide (i < length background_tasks) then
        if has_logger then
          Some ([EvLog LDebug2
                   (LogSendingDone (i + 1) (length background_tasks))],
                {| rs_main := rs_main st;
                   rs_background := rs_background st;
                   rs_coordinator := CoSend i;
                   rs_crashed := rs_crashed st;
                   rs_result := rs_result st |})
        else
          Some ([EvPanic],
                {| rs_main := rs_main st;
                   rs_background := rs_background st;
                   rs_coordinator := rs_coordinator st;
                   rs_crashed := true;
                   rs_result := rs_result st |})
      else
        Some ([], {| rs_main := rs_main st;
                     rs_background := rs_background st;
                     rs_coordinator := CoExit;
                     rs_crashed := rs_crashed st;
                     rs_result := rs_result st |})
  | _ => None
  end.

Definition step_wait (st : run_state) : option (list event * run_state) :=
  match rs_main st with
  | Returned err =>
      if forallb is_returned (rs_background st) then
        Some (log_if_logger LDebug2 LogAllTasksFinished ++ [EvRunReturn err],
              {| rs_main := rs_main st;
                 rs_background := rs_background st;
                 rs_coordinator := rs_coordinator st;
                 rs_crashed := rs_crashed st;
                 rs_result := Some err |})
      else None
  | Running _ => None
  end.

(** One scheduling step; nothing happens once the process has panicked or
    [Run] has returned. *)
Definition step (c : choice) (st : run_state)
    : option (list event * run_state) :=
  if rs_crashed st then None
  else match rs_result st with
       | Some _ => None
       | None =>
           match c with
           | RunMain k => step_main k st
           | RunBackground i k => step_background i k st
           | RunCoordinator => step_coordinator st
           | RunWait => step_wait st
           end
       end.

(** The steps of a schedule, one after the other; [None] when the schedule
    asks for a step that cannot happen. *)
Fixpoint exec (schedule : list choice) (st : run_state)
    : option (list event * run_state) :=
  match schedule with
  | [] => Some ([], st)
  | c :: rest =>
      match step c st with
      | None => None
      | Some (evs, st) =>
          match exec rest st with
          | None => None
          | Some (evs', st) => Some (evs ++ evs', st)
          end
      end
  end.

End Tasks.

(** Tasks that cooperate: a main task that sends on its channel and then
    returns [err], a background task that waits for [DONE] and then returns
    [err], and the schedule of [n] such background tasks in which the main
    task signals, the coordinator serves the background tasks in turn, and
    the main task returns. *)
Definition signalling (err : option error) : Task :=
  {| task_start := 0;
     task_moves := fun pc => match pc with
                             | 0 => [Comm 1]
                             | _ => [Return err]
                             end |}.

Definition waiting (err : option error) : Task :=
  {| task_start := 0;
     task_moves := fun pc => match pc with
                             | 0 => [Comm 1]
                             | _ => [Return err]
                             end |}.

Definition drain_schedule (n : nat) : list choice :=
  RunMain 0
  :: flat_map (fun i => [RunCoordinator; RunBackground i 0; RunBackground i 0])
       (seq 0 n)
  ++ [RunCoordinator; RunMain 0; RunWait].

(** The background tasks [waiting <$> errs] when the first [i] have
    returned and the others wait, and the state of [Run] with the
    coordinator at index [i]. *)
Definition served (errs : list (option error)) (i : nat) : list thread :=
  imap (fun j e => if decide (j < i) then Returned e else Running 0) errs.

Definition serving (errs : list (option error)) (i : nat) : run_state :=
  {| rs_main := Running 1;
     rs_background := served errs i;
     rs_coordinator := CoLoop i;
     rs_crashed := false;
     rs_result := None |}.

(** How far [Run] has come at the end of a schedule. *)
Inductive outcome : Type :=
| Finished (err : option error)
| Crashed
| Unfinished
| Infeasible.

(** [AppInstance.Run] under a schedule of its goroutines. *)
Definition AppInstance_Run (this : AppInstance) (main_task : MainTask)
    (background_tasks : list BackgroundTask) (schedule : list choice)
    : list event * outcome :=
  match run_hooks this (modules this) with
  | (evs, Err e) => (evs, Finished (Some e))
  | (evs, Panic) => (evs, Crashed)
  | (evs, Ok _) =>
      let main := main_task this in
      let background := (fun t => t this) <$> background_tasks in
      match exec this main background schedule
                 (initial main background) with
      | None => (evs, Infeasible)
      | Some (evs', st) =>
          (evs ++ evs',
           match rs_result st with
           | Some err => Finished err
           | None => if rs_crashed st then Crashed else Unfinished
           end)
      end
  end.

(** ** Reading a module list and a trace *)

(** How many times a module occurs in a module list. *)
Definition occurrences (other : ModuleRef) (modules : list ModuleRef) : nat :=
  length (filter (fun module => module = other) modules).

(** The errors of [setModuleInstance] for a name or a type that is taken. *)
Definition registration_error (err : option error) : bool :=
  match err with
  | Some (ErrDuplicateName _) | Some (ErrDuplicateType _) => true
  | _ => false
  end.

(** The drivers whose [Close] was called, in call order. *)
Fixpoint closed (evs : list event) : list Driver :=
  match evs with
  | [] => []
  | EvClose d _ :: rest => d :: closed rest
  | _ :: rest => closed rest
  end.

(** The drivers that [New] hooks returned with a nil error, in call
    order. *)
Fixpoint built (evs : list event) : list Driver :=
  match evs with
  | [] => []
  | EvNew _ (Some d) None :: rest => d :: built rest
  | _ :: rest => built rest
  end.

(** The singleton-constrained types among the modules of a list that have
    a [New] hook, in list order. *)
Fixpoint singleton_types (modules : list ModuleRef) : list ModuleType :=
  match modules with
  | [] => []
  | p :: rest =>
      match heap p with
      | Some module =>
          if bool_decide (is_Some (New module)) && singleton_type (Type_ module)
          then Type_ module :: singleton_types rest
          else singleton_types rest
      | None => singleton_types rest
      end
  end.

(** What the build has to say about a call of a [New] hook that came back
    with driver [od] and error [oe]. *)
Definition hook_verdict (module : Module) (p : ModuleRef)
    (od : option Driver) (oe : option error)
    (evs : list event) (r : result AppInstance) : Prop :=
  match oe, od with
  | Some e, _ =>
      r = Err e ∧ last evs = Some (EvNew p od oe) ∧ closed evs = []
  | None, None =>
      r = Err (ErrNewReturnNil (Name module)) ∧
      last evs = Some (EvNew p od oe) ∧ closed evs = []
  | None, Some _ => True
  end.

(** The modules whose [New] hook was called, in call order. *)
Fixpoint constructed (evs : list event) : list ModuleRef :=
  match evs with
  | [] => []
  | EvNew p _ _ :: rest => p :: constructed rest
  | _ :: rest => constructed rest
  end.

(** What the main task returned, once for each return. *)
Fixpoint main_returns (evs : list event) : list (option error) :=
  match evs with
  | [] => []
  | EvMainReturn err :: rest => err :: main_returns rest
  | _ :: rest => main_returns rest
  end.

(** Every [DONE] delivered to a background task comes after the return of
    the main task; [returned] tells whether the return came before
    [evs]. *)
Fixpoint done_after_return (returned : bool) (evs : list event) : bool :=
  match evs with
  | [] => true
  | EvMainReturn _ :: rest => done_after_return true rest
  | EvSendDone _ :: rest => returned && done_after_return returned rest
  | _ :: rest => done_after_return returned rest
  end.

(** Every [DONE] delivered to a background task comes after the main task
    sent on [channels[0]]; [signalled] tells whether that came before
    [evs]. *)
Fixpoint done_after_signal (signalled : bool) (evs : list event) : bool :=
  match evs with
  | [] => true
  | EvMainSignal :: rest => done_after_signal true rest
  | EvSendDone _ :: rest => signalled && done_after_signal signalled rest
  | _ :: rest => done_after_signal signalled rest
  end.

(** ** Lookups and accessors *)

(** The reserved words of [ModuleInstance] with the capability type each
    stands for; the table [module_name_map] is declared in another file of
    the package. *)
Variable module_name_map : gmap string ModuleType.

(** [AppInstance.ModuleInstance]: a lookup that finds nothing gives nil. *)
Definition ModuleInstance (name : string) (this : AppInstance)
    : option Driver :=
  match module_name_map !! name with
  | Some module_type => bytype this !! module_type
  | None => byname this !! name
  end.

(** [AppInstance.Debug], [AppInstance.Verbose], [AppInstance.Service] *)
Definition AppInstance_Debug (this : AppInstance) : bool := debug this.
Definition AppInstance_Verbose (this : AppInstance) : bool := verbose this.
Definition AppInstance_Service (this : AppInstance) : string := service this.

(** What [NewAppInstance] sets before its loop. *)
Definition settings (this : AppInstance)
    : option Flags * bool * bool * string * list ModuleRef :=
  (this_AppFlags this, debug this, verbose this, service this, modules this).

(** Whether [NewAppInstance] calls a [New] hook for the module at [p]. *)
Definition constructible (p : ModuleRef) : bool :=
  match heap p with
  | Some module => bool_decide (is_Some (New module))
  | None => false
  end.

(** The close errors that [Close] logged, in log order. *)
Fixpoint close_errors (evs : list event) : list error :=
  match evs with
  | [] => []
  | EvLog LError (LogCloseError e) :: rest => e :: close_errors rest
  | _ :: rest => close_errors rest
  end.

(** The background tasks that were given [DONE], in delivery order. *)
Fixpoint done_indices (evs : list event) : list nat :=
  match evs with
  | [] => []
  | EvSendDone i :: rest => i :: done_indices rest
  | _ :: rest => done_indices rest
  end.

(** The modules whose [Run] hook was called, in call order. *)
Fixpoint hooks_run (evs : list event) : list ModuleRef :=
  match evs with
  | [] => []
  | EvRunHook p _ _ :: rest => p :: hooks_run rest
  | _ :: rest => hooks_run rest
  end.

(** The events of the tasks and of the coordinator: none of them happens
    while the [Run] hooks are called. *)
Definition task_event (ev : event) : bool :=
  match ev with
  | EvMainSignal | EvSendDone _ | EvMainReturn _ | EvBackgroundReturn _ _
  | EvRunReturn _ | EvPanic => true
  | _ => false
  end.

(** The index of the background task the coordinator serves next ([n]
    background tasks in all), and the bounds its loop keeps. *)
Definition coordinator_index (n : nat) (c : coordinator) : nat :=
  match c with
  | CoWaitMain => 0
  | CoLoop i | CoSend i => i
  | CoExit => n
  end.

Definition coordinator_in_range (n : nat) (c : coordinator) : Prop :=
  match c with
  | CoWaitMain | CoExit => True
  | CoLoop i => i ≤ n
  | CoSend i => i < n
  end.

(** The coordinator has not got past background task [i]. *)
Definition coordinator_up_to (i : nat) (c : coordinator) : Prop :=
  match c with
  | CoWaitMain => True
  | CoLoop k | CoSend k => k ≤ i
  | CoExit => False
  end.

(** A task that cannot return from a control point in [waits] before it
    has been through its channel: its moves there are steps of its own
    that stay in [waits], or operations on the channel. *)
Definition waits_for_channel (t : Task) (waits : nat -> bool) : Prop :=
  waits (task_start t) = true ∧
  ∀ pc m, waits pc = true → m ∈ task_moves t pc →
          match m with
          | Tau next => waits next = true
          | Comm _ => True
          | Return _ => False
          end.

(** A task that never uses its channel. *)
Definition never_communicates (t : Task) : Prop :=
  ∀ pc next, Comm next ∉ task_moves t pc.

Section Rules.
Variable this : AppInstance.
Variable main_task : Task.
Variable background_tasks : list Task.

(** The steps of [step], one rule for each thing that can happen. *)
Inductive step_spec : choice → run_state → list event → run_state → Prop :=
| spec_main_tau k pc next st :
    rs_main st = Running pc →
    task_moves main_task pc !! k = Some (Tau next) →
    step_spec (RunMain k) st []
      {| rs_main := Running next; rs_background := rs_background st;
         rs_coordinator := rs_coordinator st; rs_crashed := false;
         rs_result := None |}
| spec_main_signal k pc next st :
    rs_main st = Running pc →
    task_moves main_task pc !! k = Some (Comm next) →
    rs_coordinator st = CoWaitMain →
    step_spec (RunMain k) st
      (EvMainSignal :: log_if_logger this LDebug2 LogMainThreadDone)
      {| rs_main := Running next; rs_background := rs_background st;
         rs_coordinator := CoLoop 0; rs_crashed := false;
         rs_result := None |}
| spec_main_return k pc err st :
    rs_main st = Running pc →
    task_moves main_task pc !! k = Some (Return err) →
    step_spec (RunMain k) st
      (EvMainReturn err ::
       (if decide (0 < length background_tasks)
        then log_if_logger this LDebug2 LogWaitingForTasks else []))
      {| rs_main := Returned err; rs_background := rs_background st;
         rs_coordinator := rs_coordinator st; rs_crashed := false;
         rs_result := None |}
| spec_background_tau i k t pc next st :
    background_tasks !! i = Some t →
    rs_background st !! i = Some (Running pc) →
    task_moves t pc !! k = Some (Tau next) →
    step_spec (RunBackground i k) st []
      {| rs_main := rs_main st;
         rs_background := <[i := Running next]> (rs_background st);
         rs_coordinator := rs_coordinator st; rs_crashed := false;
         rs_result := None |}
| spec_background_done i k t pc next st :
    background_tasks !! i = Some t →
    rs_background st !! i = Some (Running pc) →
    task_moves t pc !! k = Some (Comm next) →
    rs_coordinator st = CoSend i →
    step_spec (RunBackground i k) st [EvSendDone i]
      {| rs_main := rs_main st;
         rs_background := <[i := Running next]> (rs_background st);
         rs_coordinator := CoLoop (S i); rs_crashed := false;
         rs_result := None |}
| spec_background_return i k t pc err st :
    background_tasks !! i = Some t →
    rs_background st !! i = Some (Running pc) →
    task_moves t pc !! k = Some (Return err) →
    step_spec (RunBackground i k) st
      (EvBackgroundReturn i err ::
       match err with
       | Some e => log_if_logger this LError (LogBackgroundError e (i + 1))
       | None => []
       end)
      {| rs_main := rs_main st;
         rs_background := <[i := Returned err]> (rs_background st);
         rs_coordinator := rs_coordinator st; rs_crashed := false;
         rs_result := None |}
| spec_coordinator_send i st :
    rs_coordinator st = CoLoop i →
    i < length background_tasks →
    has_logger this = true →
    step_spec RunCoordinator st
      [EvLog LDebug2 (LogSendingDone (i + 1) (length background_tasks))]
      {| rs_main := rs_main st; rs_background := rs_background st;
         rs_coordinator := CoSend i; rs_crashed := false;
         rs_result := None |}
| spec_coordinator_panic i st :
    rs_coordinator st = CoLoop i →
    i < length background_tasks →
    has_logger this = false →
    step_spec RunCoordinator st [EvPanic]
      {| rs_main := rs_main st; rs_background := rs_background st;
         rs_coordinator := CoLoop i; rs_crashed := true;
         rs_result := None |}
| spec_coordinator_exit i st :
    rs_coordinator st = CoLoop i →
    ¬ i < length background_tasks →
    step_spec RunCoordinator st []
      {| rs_main := rs_main st; rs_background := rs_background st;
         rs_coordinator := CoExit; rs_crashed := false;
         rs_result := None |}
| spec_wait err st :
    rs_main st = Returned err →
    forallb is_returned (rs_background st) = true →
    step_spec RunWait st
      (log_if_logger this LDebug2 LogAllTasksFinished ++ [EvRunReturn err])
      {| rs_main := Returned err; rs_background := rs_background st;
         rs_coordinator := rs_coordinator st; rs_crashed := false;
         rs_result := Some err |}.

End Rules.

(** Background task [j] is at a control point of [waits], from which it
    cannot return before it has received [DONE], and [Run] has not
    returned. *)
Definition still_waiting (j : nat) (waits : nat -> bool) (st : run_state)
    : Prop :=
  rs_result st = None ∧
  ∃ pc, rs_background st !! j = Some (Running pc) ∧ waits pc = true.

End App.

(** * Sample programs

    A small flag set, a registry of modules with their drivers, and a few
    tasks, to run the definitions above on. *)
Module Demo.

Record toy_flags : Type := {
  tf_name : string;
  tf_known : list string;
  tf_parsed : bool;
  tf_given : list string
}.

(** Every argument has to be a dash followed by the name of a flag. *)
Definition toy_parse (f : toy_flags) (args : list string)
    : toy_flags * option error :=
  match filter (fun a => a ∉ (fun n => "-" +:+ n) <$> tf_known f) args with
  | [] => ({| tf_name := tf_name f; tf_known := tf_known f;
              tf_parsed := true; tf_given := args |}, None)
  | bad :: _ =>
      (f, Some (ErrExternal ("flag provided but not defined: " +:+ bad)))
  end.

Definition toy : FlagsOps :=
  {| Flags := toy_flags;
     NewFlags := fun n => {| tf_name := n; tf_known := [];
                             tf_parsed := false; tf_given := [] |};
     FlagBool := fun f n _ _ =>
       {| tf_name := tf_name f; tf_known := tf_known f ++ [n];
          tf_parsed := tf_parsed f; tf_given := tf_given f |};
     Parsed := tf_parsed;
     Parse := toy_parse;
     GetBool := fun f n => (bool_decide ("-" +:+ n ∈ tf_given f),
                            bool_decide (n ∈ tf_known f));
     FlagsName := tf_name |}.

#[local] Existing Instance toy.

Definition logger_driver : Driver :=
  {| drv_id := 1; drv_close := None; drv_implements := [IfLogger] |}.
Definition bus_driver : Driver :=
  {| drv_id := 2; drv_close := Some (ErrExternal "bus busy");
     drv_implements := [IfI2C] |}.
Definition sensor_driver : Driver :=
  {| drv_id := 3; drv_close := None; drv_implements := [] |}.
Definition second_logger_driver : Driver :=
  {| drv_id := 4; drv_close := None; drv_implements := [IfLogger] |}.
Definition broken_driver : Driver :=
  {| drv_id := 5; drv_close := None; drv_implements := [] |}.

Definition logger_module : Module :=
  {| Name := "logger"; Type_ := MODULE_TYPE_LOGGER;
     Config := None;
     New := Some (fun _ => (Some logger_driver, None));
     Run := None |}.
(** The bus registers a flag of its own. *)
Definition bus_module : Module :=
  {| Name := "bus"; Type_ := MODULE_TYPE_I2C;
     Config := Some (fun config =>
       {| Modules := Modules config; AppArgs := AppArgs config;
          AppFlags := (fun f => FlagBool f "fast" false "Fast bus mode")
                        <$> AppFlags config;
          Debug := Debug config; Verbose := Verbose config;
          Service := Service config |});
     New := Some (fun _ => (Some bus_driver, None));
     Run := None |}.
Definition sensor_module : Module :=
  {| Name := "sensor"; Type_ := MODULE_TYPE_OTHER;
     Config := None;
     New := Some (fun _ => (Some sensor_driver, None));
     Run := None |}.
(** A second module of type logger. *)
Definition second_logger_module : Module :=
  {| Name := "logger2"; Type_ := MODULE_TYPE_LOGGER;
     Config := None;
     New := Some (fun _ => (Some second_logger_driver, None));
     Run := None |}.
(** A module whose [New] returns a driver together with an error. *)
Definition broken_module : Module :=
  {| Name := "broken"; Type_ := MODULE_TYPE_OTHER;
     Config := None;
     New := Some (fun _ => (Some broken_driver,
                            Some (ErrExternal "no such device")));
     Run := None |}.
(** A module whose [New] returns nil and no error. *)
Definition absent_module : Module :=
  {| Name := "absent"; Type_ := MODULE_TYPE_OTHER;
     Config := None;
     New := Some (fun _ => (None, None));
     Run := None |}.
(** A module without [New] whose [Run] hook fails. *)
Definition stubborn_module : Module :=
  {| Name := "stubborn"; Type_ := MODULE_TYPE_NONE;
     Config := None;
     New := None;
     Run := Some (fun _ _ => Some (ErrExternal "not ready")) |}.

Definition heap (p : ModuleRef) : option Module :=
  match p with
  | 1 => Some logger_module
  | 2 => Some bus_module
  | 3 => Some sensor_module
  | 4 => Some second_logger_module
  | 5 => Some broken_module
  | 6 => Some absent_module
  | 7 => Some stubborn_module
  | _ => None
  end.

(** logger has no dependency, bus requires logger, sensor requires bus. *)
Definition ModuleWithDependencies (name : string)
    : list ModuleRef * option error :=
  if decide (name = "logger") then ([1], None)
  else if decide (name = "bus") then ([1; 2], None)
  else if decide (name = "sensor") then ([1; 2; 3], None)
  else ([], Some (ErrExternal ("module not registered: " +:+ name))).

Definition path_Base (s : string) : string := s.

Definition flags : Flags :=
  FlagBool (FlagBool (NewFlags "demo") "debug" false "Set debugging mode")
           "verbose" false "Verbose logging".

Definition config_of (ms : list ModuleRef) (args : list string)
    : AppConfig :=
  {| Modules := ms; AppArgs := args; AppFlags := Some flags;
     Debug := false; Verbose := false; Service := DEFAULT_RPC_SERVICE |}.

(** The instance before any module is constructed, and after the logger
    has been registered. *)
Definition fresh : AppInstance := new_instance (config_of [1; 4] []) flags.
Definition with_logger : AppInstance :=
  (setModuleInstance 1 logger_module logger_driver fresh).1.

(** An instance holding logger, bus and sensor, in that order. *)
Definition three_drivers : AppInstance :=
  match NewAppInstance heap (config_of [1; 2; 3] []) with
  | (_, Ok this) => this
  | _ => fresh
  end.

(** A main task that sends on its channel, then returns nil. *)
Definition signalling_main : MainTask := fun _ => signalling None.
(** A main task that returns nil at once. *)
Definition returning_main : MainTask :=
  fun _ => {| task_start := 0; task_moves := fun _ => [Return None] |}.
(** A background task that waits for [DONE], then returns an error. *)
Definition waiting_background : BackgroundTask :=
  fun _ => waiting (Some (ErrExternal "late")).

(** An instance holding the logger, with a module whose [Run] hook
    fails. *)
Definition with_stubborn : AppInstance :=
  match NewAppInstance heap (config_of [1; 7] []) with
  | (_, Ok this) => this
  | _ => fresh
  end.

(** The configuration of a program that asks for the sensor. *)
Definition sensor_config : AppConfig :=
  match NewAppConfig heap ModuleWithDependencies path_Base
          "demo" ["-test.v"; "-debug"] ["sensor"] with
  | (_, Ok config) => config
  | _ => AppConfig_zero
  end.

(** A schedule of [Run] with [signalling_main] and [waiting_background]:
    the main task sends on its channel, the coordinator delivers [DONE],
    and only then does the main task return. *)
Definition early_done : list choice :=
  [RunMain 0; RunCoordinator; RunBackground 0 0; RunMain 0;
   RunBackground 0 0; RunWait].

End Demo.

(** * The discovery command

    The tasks of the service discovery command of the repository, as far
    as [Run] can tell what they do, with a table of reserved words and a
    few instances to run the definitions on. *)
Module Discovery.

#[local] Existing Instance Demo.toy.

(** [MainLoop]: it waits for a signal or for the timeout, sends on its
    channel and returns nil. *)
Definition MainLoop : MainTask :=
  fun _ => {| task_start := 0;
              task_moves := fun pc => match pc with
                                      | 0 => [Tau 1]
                                      | 1 => [Comm 2]
                                      | _ => [Return None]
                                      end |}.

(** [BrowseLoop] when the service parameter is missing: it returns an
    error at once and never receives on its channel. *)
Definition BrowseLoop_no_service : BackgroundTask :=
  fun _ =>
    {| task_start := 0;
       task_moves := fun _ =>
         [Return (Some (ErrExternal
                          "Missing or invalid -service parameter"))] |}.

(** [EventLoop]: a [select] between an event of the discovery service and
    the channel; after the channel it unsubscribes and returns nil. *)
Definition EventLoop : BackgroundTask :=
  fun _ => {| task_start := 0;
              task_moves := fun pc => match pc with
                                      | 0 => [Tau 0; Comm 1]
                                      | 1 => [Tau 2]
                                      | _ => [Return None]
                                      end |}.

(** The control points at which [EventLoop] has not been through its
    channel. *)
Definition EventLoop_waits (pc : nat) : bool := bool_decide (pc = 0).

(** Two reserved words. *)
Definition reserved_words : gmap string ModuleType :=
  {[ "logger" := MODULE_TYPE_LOGGER; "i2c" := MODULE_TYPE_I2C ]}.

(** A module of type logger whose driver is no logger. *)
Definition mute_driver : Driver :=
  {| drv_id := 8; drv_close := None; drv_implements := [] |}.
Definition mute_module : Module :=
  {| Name := "mute"; Type_ := MODULE_TYPE_LOGGER;
     Config := None;
     New := Some (fun _ => (Some mute_driver, None));
     Run := None |}.

(** The instance of a program started with the debug flag. *)
Definition debug_config : AppConfig := Demo.config_of [1; 2; 3] ["-debug"].
Definition debug_instance : AppInstance :=
  match NewAppInstance Demo.heap debug_config with
  | (_, Ok this) => this
  | _ => Demo.fresh
  end.

(** An instance after [Close]. *)
Definition closed_instance : AppInstance := cleared Demo.three_drivers.

End Discovery.

(** * Properties *)

(** ** The module list *)

Lemma inModules_true (modules : list ModuleRef) (other : ModuleRef) :
  inModules modules other = true ↔ other ∈ modules.
Proof.
  induction modules as [|module rest IH]; simpl.
  - split; [discriminate | by intros ?%elem_of_nil].
  - destruct (decide (module = other)) as [->|Hne].
    + split; [intros _; apply elem_of_cons; by left | done].
    + rewrite IH, elem_of_cons. split; [by right | intros [?|?]; [congruence | done]].
Qed.

Lemma inModules_false (modules : list ModuleRef) (other : ModuleRef) :
  inModules modules other = false ↔ other ∉ modules.
Proof.
  rewrite <- inModules_true. destruct (inModules modules other); naive_solver.
Qed.

Lemma occurrences_app (m : ModuleRef) (l1 l2 : list ModuleRef) :
  occurrences m (l1 ++ l2) = occurrences m l1 + occurrences m l2.
Proof. unfold occurrences. by rewrite filter_app, length_app. Qed.

Lemma occurrences_absent (m : ModuleRef) (l : list ModuleRef) :
  m ∉ l → occurrences m l = 0.
Proof.
  unfold occurrences. induction l as [|x l IH]; [done|].
  intros [Hne Hl]%not_elem_of_cons.
  rewrite filter_cons_False by congruence. auto.
Qed.

Lemma occurrences_NoDup (l : list ModuleRef) :
  NoDup l ↔ ∀ m, occurrences m l ≤ 1.
Proof.
  unfold occurrences. induction l as [|x l IH].
  - split; [simpl; lia | constructor].
  - rewrite NoDup_cons, IH. split.
    + intros [Hx Hl] m. destruct (decide (x = m)) as [->|Hne].
      * rewrite filter_cons_True by done. simpl.
        pose proof (occurrences_absent m l Hx) as H0.
        unfold occurrences in H0. lia.
      * rewrite filter_cons_False by done. apply Hl.
    + intros H. split.
      * intros Hx. specialize (H x). rewrite filter_cons_True in H by done.
        simpl in H.
        assert (x ∈ filter (λ module, module = x) l) as Hin
          by (by apply list_elem_of_filter).
        destruct (filter (λ module, module = x) l);
          [by apply elem_of_nil in Hin | simpl in H; lia].
      * intros m. specialize (H m). destruct (decide (x = m)).
        -- rewrite filter_cons_True in H by done. simpl in H. lia.
        -- by rewrite filter_cons_False in H by done.
Qed.

(** The loop of [appendModules] keeps what is there and adds, once, each
    module of [others] that is not. *)
Lemma appendModules_loop_occurrences (others modules : list ModuleRef)
    (m : ModuleRef) :
  occurrences m (appendModules_loop modules others) =
    if inModules modules m then occurrences m modules
    else if inModules others m then 1 else 0.
Proof.
  revert modules. induction others as [|other rest IH]; intros modules; simpl.
  - destruct (inModules modules m) eqn:Hm; [done|].
    apply occurrences_absent. by apply inModules_false.
  - destruct (inModules modules other) eqn:Hother.
    + rewrite IH. destruct (inModules modules m) eqn:Hm; [done|].
      destruct (decide (other = m)) as [->|Hne]; [congruence | done].
    + rewrite IH. rewrite occurrences_app.
      destruct (decide (other = m)) as [->|Hne].
      * rewrite Hother.
        replace (inModules (modules ++ [m]) m) with true
          by (symmetry; apply inModules_true; set_solver).
        rewrite occurrences_absent by (by apply inModules_false).
        unfold occurrences. by rewrite filter_cons_True by done.
      * assert (inModules (modules ++ [other]) m = inModules modules m) as ->.
        { destruct (inModules modules m) eqn:Hm.
          - apply inModules_true. apply inModules_true in Hm. set_solver.
          - apply inModules_false. apply inModules_false in Hm. set_solver. }
        destruct (inModules modules m); [|done].
        unfold occurrences at 2. rewrite filter_cons_False by done.
        simpl. lia.
Qed.

Lemma appendModules_occurrences (modules others : list ModuleRef)
    (m : ModuleRef) :
  occurrences m (appendModules modules others) =
    if inModules modules m then occurrences m modules
    else if inModules others m then 1 else 0.
Proof.
  unfold appendModules. destruct (decide (length others = 0)) as [Hlen|_].
  - destruct others; [|done]. simpl.
    destruct (inModules modules m) eqn:Hm; [done|].
    apply occurrences_absent. by apply inModules_false.
  - apply appendModules_loop_occurrences.
Qed.

Lemma appendModules_NoDup (modules others : list ModuleRef) :
  NoDup modules → NoDup (appendModules modules others).
Proof.
  rewrite !occurrences_NoDup. intros H m.
  rewrite appendModules_occurrences.
  destruct (inModules modules m); [apply H|].
  destruct (inModules others m); lia.
Qed.

Lemma appendModules_elem_of (modules others : list ModuleRef)
    (m : ModuleRef) :
  m ∈ appendModules modules others ↔ m ∈ modules ∨ m ∈ others.
Proof.
  assert (∀ l, m ∈ l ↔ 0 < occurrences m l) as Hpos.
  { intros l. split.
    - intros Hin. unfold occurrences.
      assert (m ∈ filter (λ module, module = m) l) as Hf
        by (by apply list_elem_of_filter).
      destruct (filter (λ module, module = m) l);
        [by apply elem_of_nil in Hf | simpl; lia].
    - intros Hocc. destruct (decide (m ∈ l)) as [|Hn]; [done|].
      rewrite occurrences_absent in Hocc by done. lia. }
  rewrite (Hpos (appendModules _ _)), appendModules_occurrences.
  destruct (inModules modules m) eqn:Hm.
  - apply inModules_true in Hm. rewrite <- Hpos. tauto.
  - apply inModules_false in Hm.
    destruct (inModules others m) eqn:Ho.
    + apply inModules_true in Ho. split; [tauto | lia].
    + apply inModules_false in Ho. split; [lia | tauto].
Qed.

(** [appendModules] only appends. *)
Lemma appendModules_loop_prefix (others modules : list ModuleRef) :
  ∃ added, appendModules_loop modules others = modules ++ added ∧
           ∀ m, m ∈ added → m ∉ modules.
Proof.
  revert modules. induction others as [|other rest IH]; intros modules; simpl.
  - exists []. split; [by rewrite app_nil_r | by intros m ?%elem_of_nil].
  - destruct (inModules modules other) eqn:Hother; [apply IH|].
    destruct (IH (modules ++ [other])) as (added & -> & Hadded).
    exists (other :: added). split; [by rewrite <- app_assoc|].
    intros m [->|Hin]%elem_of_cons; [by apply inModules_false|].
    specialize (Hadded m Hin). set_solver.
Qed.

Lemma appendModules_prefix (modules others : list ModuleRef) :
  ∃ added, appendModules modules others = modules ++ added ∧
           ∀ m, m ∈ added → m ∉ modules.
Proof.
  unfold appendModules. destruct (decide (length others = 0)).
  - exists []. split; [by rewrite app_nil_r | by intros m ?%elem_of_nil].
  - apply appendModules_loop_prefix.
Qed.

Section ModuleLists.
Variable ModuleWithDependencies : string -> list ModuleRef * option error.

Lemma AppendModulesByName_prefix (names : list string)
    (modules result : list ModuleRef) :
  AppendModulesByName ModuleWithDependencies modules names = (result, None) →
  ∃ added, result = modules ++ added ∧ ∀ m, m ∈ added → m ∉ modules.
Proof.
  revert modules. induction names as [|name rest IH]; intros modules; simpl.
  - intros [= <-]. exists [].
    split; [by rewrite app_nil_r | by intros m ?%elem_of_nil].
  - destruct (ModuleWithDependencies name) as [module_array [err|]];
      [discriminate|].
    intros H. destruct (IH _ H) as (added & -> & Hadded).
    destruct (appendModules_prefix modules module_array)
      as (added0 & Heq & Hadded0).
    rewrite Heq in *. exists (added0 ++ added).
    split; [by rewrite app_assoc|].
    intros m [Hin|Hin]%elem_of_app; [by apply Hadded0|].
    specialize (Hadded m Hin). set_solver.
Qed.

Lemma AppendModulesByName_NoDup (names : list string)
    (modules result : list ModuleRef) :
  NoDup modules →
  AppendModulesByName ModuleWithDependencies modules names = (result, None) →
  NoDup result ∧
  ∀ name m, name ∈ names → m ∈ (ModuleWithDependencies name).1 → m ∈ result.
Proof.
  revert modules. induction names as [|name rest IH]; intros modules Hnd; simpl.
  - intros [= <-]. split; [done | by intros ? ? ?%elem_of_nil].
  - destruct (ModuleWithDependencies name) as [module_array [err|]] eqn:Hname;
      [discriminate|].
    intros H.
    destruct (IH _ (appendModules_NoDup modules module_array Hnd) H)
      as [Hres Hin].
    split; [done|].
    intros name' m [->|Hrest]%elem_of_cons Hm; [|by eapply Hin].
    rewrite Hname in Hm. simpl in Hm.
    destruct (AppendModulesByName_prefix _ _ _ H) as (added & -> & _).
    apply elem_of_app. left. apply appendModules_elem_of. by right.
Qed.

Lemma occurrences_present (m : ModuleRef) (l : list ModuleRef) :
  m ∈ l → 0 < occurrences m l.
Proof.
  intros Hin. unfold occurrences.
  assert (m ∈ filter (λ module, module = m) l) as Hf
    by (by apply list_elem_of_filter).
  destruct (filter (λ module, module = m) l);
    [by apply elem_of_nil in Hf | simpl; lia].
Qed.

(** C7: [appendModules] keeps every occurrence that is in the list already
    and adds a module of the other list once, and only when the list does
    not hold it; so a list without duplicates stays without duplicates
    under [AppendModulesByName], and each module that a requested name
    resolves to occurs in the assembled list exactly once, however many of
    the names lead to it. *)
Theorem AppendModulesByName_no_duplicates (modules others : list ModuleRef)
    (names : list string) (assembled : list ModuleRef) :
  (∀ m, occurrences m (appendModules modules others) =
          if inModules modules m then occurrences m modules
          else if inModules others m then 1 else 0) ∧
  (NoDup modules →
   AppendModulesByName ModuleWithDependencies modules names
     = (assembled, None) →
   NoDup assembled ∧
   (∀ m, m ∈ modules → occurrences m assembled = 1) ∧
   (∀ name m, name ∈ names → m ∈ (ModuleWithDependencies name).1 →
              occurrences m assembled = 1)).
Proof.
  split; [intros m; apply appendModules_occurrences|].
  intros Hnd Happend.
  destruct (AppendModulesByName_NoDup _ _ _ Hnd Happend) as [Hres Hin].
  destruct (AppendModulesByName_prefix _ _ _ Happend) as (added & Heq & _).
  assert (∀ m, m ∈ assembled → occurrences m assembled = 1) as Hone.
  { intros m Hm. apply occurrences_present in Hm.
    apply occurrences_NoDup with (m := m) in Hres. lia. }
  split_and!; [done | |].
  - intros m Hm. apply Hone. subst assembled. apply elem_of_app. by left.
  - intros name m Hname Hm. apply Hone. by eapply Hin.
Qed.

End ModuleLists.

Section Properties.
Context `{FO : FlagsOps}.
Variable heap : ModuleRef -> option Module.
Variable ModuleWithDependencies : string -> list ModuleRef * option error.
Variable path_Base : string -> string.

(** ** Registering a driver *)

Lemma set_field_tables (i : Interface) (v : option Driver)
    (this : AppInstance) :
  byname (set_field i v this) = byname this ∧
  bytype (set_field i v this) = bytype this ∧
  byorder (set_field i v this) = byorder this.
Proof. done. Qed.

Lemma setModuleInstance_tail_tables (p : ModuleRef) (module : Module)
    (driver : Driver) (this : AppInstance) :
  byname (setModuleInstance_tail p module driver this).1 = byname this ∧
  bytype (setModuleInstance_tail p module driver this).1 = bytype this ∧
  byorder (setModuleInstance_tail p module driver this).1
    = byorder this ++ [driver] ∧
  registration_error (setModuleInstance_tail p module driver this).2 = false.
Proof.
  unfold setModuleInstance_tail.
  destruct (interface_of_type (Type_ module)) as [i|]; [|done].
  by destruct (implements driver i).
Qed.

(** The outcomes of [setModuleInstance], by the state of the two maps. *)
Lemma setModuleInstance_cases (p : ModuleRef) (module : Module)
    (driver : Driver) (this : AppInstance) :
  let named := set_byname (<[Name module := driver]> (byname this)) this in
  setModuleInstance p module driver this =
    match byname this !! Name module with
    | Some _ => (this, Some (ErrDuplicateName (Name module)))
    | None =>
        if singleton_type (Type_ module) then
          match bytype this !! Type_ module with
          | Some _ => (named, Some (ErrDuplicateType (Type_ module)))
          | None =>
              setModuleInstance_tail p module driver
                (set_bytype (<[Type_ module := driver]> (bytype this)) named)
          end
        else setModuleInstance_tail p module driver named
    end.
Proof. done. Qed.

(** Entries of the two maps are never overwritten or removed, and the
    creation-order list only grows at its end. *)
Lemma setModuleInstance_grows (p : ModuleRef) (module : Module)
    (driver : Driver) (this : AppInstance) :
  byname this ⊆ byname (setModuleInstance p module driver this).1 ∧
  bytype this ⊆ bytype (setModuleInstance p module driver this).1 ∧
  byorder this `prefix_of` byorder (setModuleInstance p module driver this).1.
Proof.
  rewrite setModuleInstance_cases.
  destruct (byname this !! Name module) eqn:Hname; [done|].
  destruct (singleton_type (Type_ module)).
  - destruct (bytype this !! Type_ module) eqn:Htype; simpl.
    + split_and!; [by apply insert_subseteq | done | done].
    + destruct (setModuleInstance_tail_tables p module driver
        (set_bytype (<[Type_ module := driver]> (bytype this))
           (set_byname (<[Name module := driver]> (byname this)) this)))
        as (-> & -> & -> & _).
      split_and!; [by apply insert_subseteq | by apply insert_subseteq |].
      by apply prefix_app_r.
  - destruct (setModuleInstance_tail_tables p module driver
      (set_byname (<[Name module := driver]> (byname this)) this))
      as (-> & -> & -> & _).
    split_and!; [by apply insert_subseteq | done | by apply prefix_app_r].
Qed.

(** ** Teardown *)

Lemma closed_app (evs1 evs2 : list event) :
  closed (evs1 ++ evs2) = closed evs1 ++ closed evs2.
Proof.
  induction evs1 as [|ev evs1 IH]; [done|].
  destruct ev; simpl; by rewrite ?IH.
Qed.

Lemma close_loop_closed (drivers : list Driver) (i : nat) :
  i ≤ length drivers →
  ∃ evs, close_loop drivers i = (evs, Ok tt) ∧
         closed evs = reverse (take i drivers).
Proof.
  induction i as [|j IH]; intros Hi; simpl.
  - exists []. by rewrite take_0.
  - destruct (lookup_lt_is_Some_2 drivers j) as [driver Hj]; [lia|].
    rewrite Hj. destruct IH as (evs & -> & Hevs); [lia|].
    eexists. split; [reflexivity|].
    rewrite (take_S_r _ _ _ Hj), reverse_snoc. simpl.
    rewrite closed_app, Hevs. by destruct (drv_close driver).
Qed.

(** ** Building the instance *)

Lemma hook_verdict_later (module : Module) (p : ModuleRef)
    (od : option Driver) (oe : option error)
    (logs evs : list event) (r : result AppInstance) :
  closed logs = [] →
  hook_verdict module p od oe evs r →
  hook_verdict module p od oe (logs ++ evs) r.
Proof.
  unfold hook_verdict. intros Hlogs.
  destruct oe as [e|]; [|destruct od as [d|]; [done|]];
    intros (-> & Hlast & Hclosed);
    (split_and!; [done | by rewrite last_app, Hlast
                 | by rewrite closed_app, Hlogs, Hclosed]).
Qed.

Ltac elem_of_trace H :=
  repeat (apply elem_of_cons in H as [H|H]);
  try (by apply elem_of_nil in H); try discriminate H.

Lemma emit_inv {A : Type} (logs evs : list event) (k : list event * A)
    (r : A) :
  emit logs k = (evs, r) → ∃ evs', k = (evs', r) ∧ evs = logs ++ evs'.
Proof. destruct k as [evs' r']. intros [= <- <-]. by exists evs'. Qed.

(** One turn of the loop of [NewAppInstance]. *)
Lemma build_cons (all rest : list ModuleRef) (q : ModuleRef) (once : bool)
    (this : AppInstance) :
  build heap all (q :: rest) once this =
    let has_logger := bool_decide (is_Some (Logger this)) in
    emit (if has_logger && negb once
          then [EvLog LDebug (LogOpenModules all)] else [])
      match heap q with
      | None => ([], Panic)
      | Some module =>
          match New module with
          | None => build heap all rest (once || has_logger) this
          | Some new =>
              emit (if has_logger then [EvLog LDebug2 (LogModuleNew q)]
                    else [])
                (emit [EvNew q (new this).1 (new this).2]
                   match (new this).2, (new this).1 with
                   | Some e, _ => ([], Err e)
                   | None, None => ([], Err (ErrNewReturnNil (Name module)))
                   | None, Some d =>
                       match (setModuleInstance q module d this).2 with
                       | None =>
                           build heap all rest (once || has_logger)
                             (setModuleInstance q module d this).1
                       | Some e =>
                           emit [EvClose d (drv_close d)]
                             match drv_close d with
                             | None => ([], Err e)
                             | Some ce =>
                                 match Logger
                                   (setModuleInstance q module d this).1 with
                                 | None => ([], Panic)
                                 | Some _ =>
                                     ([EvLog LError (LogModuleCloseError ce)],
                                      Err e)
                                 end
                             end
                       end
                   end)
          end
      end.
Proof.
  simpl. destruct (heap q) as [module|]; [|done].
  destruct (New module) as [new|]; [|done].
  destruct (new this) as [driver err]. simpl.
  destruct err; [done|]. destruct driver as [d|]; [|done].
  by destruct (setModuleInstance q module d this) as [this' [e|]].
Qed.

Lemma open_log_silent (b : bool) (line : LogLine) (lvl : LogLevel)
    (p : ModuleRef) (od : option Driver) (oe : option error) :
  closed (if b then [EvLog lvl line] else []) = [] ∧
  EvNew p od oe ∉ (if b then [EvLog lvl line] else []).
Proof. destruct b; split; try done; intros Hin; elem_of_trace Hin. Qed.

(** Every call of a [New] hook in a build is the call of a module of the
    heap, and the build ends as [hook_verdict] says. *)
Lemma build_hook_verdict (all rest : list ModuleRef) (once : bool)
    (this : AppInstance) (evs : list event) (r : result AppInstance)
    (p : ModuleRef) (od : option Driver) (oe : option error) :
  build heap all rest once this = (evs, r) →
  EvNew p od oe ∈ evs →
  ∃ module new, heap p = Some module ∧ New module = Some new ∧
                hook_verdict module p od oe evs r.
Proof.
  revert once this evs. induction rest as [|q rest IH]; intros once this evs.
  - simpl. destruct once; [|destruct (Logger this)];
      intros [= <- <-] Hin; elem_of_trace Hin.
  - rewrite build_cons. cbv zeta.
    intros (evs1 & Hb & ->)%emit_inv Hin.
    destruct (open_log_silent
                (bool_decide (is_Some (Logger this)) && negb once)
                (LogOpenModules all) LDebug p od oe) as [Hclosed Hnotin].
    apply elem_of_app in Hin as [Hin|Hin]; [done|].
    cut (∃ module new, heap p = Some module ∧ New module = Some new ∧
                       hook_verdict module p od oe evs1 r).
    { intros (m' & n' & ? & ? & ?). exists m', n'.
      split_and!; [done..|]. by apply hook_verdict_later. }
    clear Hclosed Hnotin.
    destruct (heap q) as [module|] eqn:Hq;
      [|injection Hb as <- <-; elem_of_trace Hin].
    destruct (New module) as [new|] eqn:Hnew; [|by eapply IH].
    apply emit_inv in Hb as (evs2 & Hb & ->).
    destruct (open_log_silent (bool_decide (is_Some (Logger this)))
                (LogModuleNew q) LDebug2 p od oe) as [Hclosed Hnotin].
    apply elem_of_app in Hin as [Hin|Hin]; [done|].
    cut (∃ module new, heap p = Some module ∧ New module = Some new ∧
                       hook_verdict module p od oe evs2 r).
    { intros (m' & n' & ? & ? & ?). exists m', n'.
      split_and!; [done..|]. by apply hook_verdict_later. }
    clear Hclosed Hnotin.
    apply emit_inv in Hb as (evs3 & Hb & ->).
    destruct (new this) as [driver err]. simpl in *.
    destruct err as [e|].
    { injection Hb as <- <-. elem_of_trace Hin. simplify_eq.
      by exists module, new. }
    destruct driver as [d|].
    2:{ injection Hb as <- <-. elem_of_trace Hin. simplify_eq.
        by exists module, new. }
    apply elem_of_cons in Hin as [Hin|Hin];
      [simplify_eq; by exists module, new|].
    destruct (setModuleInstance q module d this) as [this' [e|]]; simpl in *.
    + apply emit_inv in Hb as (evs4 & Hb & ->).
      apply elem_of_cons in Hin as [Hin|Hin]; [done|].
      destruct (drv_close d); [destruct (Logger this')|];
        injection Hb as <- <-; elem_of_trace Hin.
    + destruct (IH _ _ _ Hb Hin) as (m' & n' & ? & ? & ?).
      exists m', n'. split_and!; [done..|].
      by apply (hook_verdict_later _ _ _ _ [_]).
Qed.

Lemma built_app (evs1 evs2 : list event) :
  built (evs1 ++ evs2) = built evs1 ++ built evs2.
Proof.
  induction evs1 as [|ev evs1 IH]; [done|].
  destruct ev as [q [d|] [e|]| | | | | | | | | |]; simpl; by rewrite ?IH.
Qed.

Lemma log_silent (b : bool) (lvl : LogLevel) (line : LogLine) :
  closed (if b then [EvLog lvl line] else []) = [] ∧
  built (if b then [EvLog lvl line] else []) = [].
Proof. by destruct b. Qed.

(** A registration that succeeds. *)
Lemma setModuleInstance_ok (p : ModuleRef) (module : Module)
    (driver : Driver) (this : AppInstance) :
  (setModuleInstance p module driver this).2 = None →
  let this' := (setModuleInstance p module driver this).1 in
  byorder this' = byorder this ++ [driver] ∧
  (is_Some (Logger this) → is_Some (Logger this')) ∧
  (singleton_type (Type_ module) = true →
   bytype this !! Type_ module = None ∧
   bytype this' !! Type_ module = Some driver).
Proof.
  rewrite setModuleInstance_cases. cbv zeta.
  destruct (byname this !! Name module); [done|].
  set (named := set_byname _ this).
  assert (∀ that,
    (setModuleInstance_tail p module driver that).2 = None →
    Logger this = Logger that →
    is_Some (Logger this) →
    is_Some (Logger (setModuleInstance_tail p module driver that).1))
    as Hlogger.
  { intros that. unfold setModuleInstance_tail.
    destruct (interface_of_type (Type_ module)) as [i|]; simpl;
      [|by intros _ ->].
    destruct (implements driver i); [|done]. simpl. intros _ ->.
    destruct i; simpl; eauto. }
  destruct (singleton_type (Type_ module)).
  - destruct (bytype this !! Type_ module) eqn:Htype; [done|].
    set (typed := set_bytype _ named). intros Hok.
    destruct (setModuleInstance_tail_tables p module driver typed)
      as (_ & Hbt & Hbo & _).
    split_and!; [by rewrite Hbo | by apply Hlogger |].
    intros _. split; [done|]. rewrite Hbt. apply lookup_insert_eq.
  - intros Hok.
    destruct (setModuleInstance_tail_tables p module driver named)
      as (_ & _ & Hbo & _).
    split_and!; [by rewrite Hbo | by apply Hlogger | done].
Qed.

(** A build that succeeds: a logger is in place, nothing was closed, the
    creation-order list grew by the drivers built, in the order they were
    built, and no two of the modules constructed share a
    singleton-constrained type. *)
Lemma build_Ok (all rest : list ModuleRef) (once : bool)
    (this this' : AppInstance) (evs : list event) :
  build heap all rest once this = (evs, Ok this') →
  (once = true → is_Some (Logger this)) →
  is_Some (Logger this') ∧ closed evs = [] ∧
  byorder this' = byorder this ++ built evs ∧
  NoDup (singleton_types heap rest) ∧
  ∀ t, t ∈ singleton_types heap rest → bytype this !! t = None.
Proof.
  revert once this evs. induction rest as [|q rest IH]; intros once this evs.
  - simpl. intros Hb Honce.
    assert (is_Some (Logger this') ∧ this' = this ∧ closed evs = [] ∧
            built evs = []) as (? & -> & ? & ->).
    { destruct once; [injection Hb as <- <-; auto|].
      destruct (Logger this) eqn:HL; [|done].
      injection Hb as <- <-. rewrite HL. eauto. }
    split_and!; [done | done | by rewrite app_nil_r | constructor |].
    by intros t ?%elem_of_nil.
  - rewrite build_cons. cbv zeta.
    intros (evs1 & Hb & ->)%emit_inv Honce.
    assert (once || bool_decide (is_Some (Logger this)) = true →
            is_Some (Logger this)) as Honce'.
    { destruct once; [auto|]. simpl. by intros ?%bool_decide_eq_true. }
    rewrite closed_app, built_app.
    destruct (log_silent (bool_decide (is_Some (Logger this)) && negb once)
                LDebug (LogOpenModules all)) as [-> ->].
    simpl. destruct (heap q) as [module|] eqn:Hq; [|done].
    destruct (New module) as [new|] eqn:Hnew; [|exact (IH _ _ _ Hb Honce')].
    apply emit_inv in Hb as (evs2 & Hb & ->).
    rewrite closed_app, built_app.
    destruct (log_silent (bool_decide (is_Some (Logger this)))
                LDebug2 (LogModuleNew q)) as [-> ->].
    simpl. apply emit_inv in Hb as (evs3 & Hb & ->).
    destruct (new this) as [driver err]. simpl in Hb |- *.
    destruct err as [e|]; [done|]. destruct driver as [d|]; [|done].
    assert ((setModuleInstance q module d this).2 = None) as Hnone.
    { destruct (setModuleInstance q module d this) as [this1 [e|]]; [|done].
      simpl in Hb. apply emit_inv in Hb as (? & Hb & _).
      destruct (drv_close d); [destruct (Logger this1)|]; done. }
    destruct (setModuleInstance_ok q module d this Hnone)
      as (Hbo & Hlog & Htype).
    pose proof (setModuleInstance_grows q module d this) as (_ & Hgrow & _).
    destruct (setModuleInstance q module d this) as [this1 [e|]]; [done|].
    simpl in *.
    destruct (IH _ _ _ Hb) as (HL & Hclosed & Horder & Hnodup & Hfree);
      [auto|].
    split_and!; [done | done | by rewrite Horder, Hbo, <- app_assoc | |].
    + destruct (singleton_type (Type_ module)) eqn:Hsing; [|done].
      apply NoDup_cons. split; [|done].
      intros Hin. apply Hfree in Hin. destruct Htype as [_ Hsome]; [done|].
      congruence.
    + assert (∀ t, t ∈ singleton_types heap rest → bytype this !! t = None)
        as Hfree'.
      { intros t Hin. apply Hfree in Hin.
        by eapply lookup_weaken_None. }
      destruct (singleton_type (Type_ module)) eqn:Hsing; [|done].
      intros t [->|Hin]%elem_of_cons; [by apply Htype | by apply Hfree'].
Qed.

Lemma NewAppInstance_build (config : AppConfig) (evs : list event)
    (r : result AppInstance) (ev : event) :
  NewAppInstance heap config = (evs, r) → ev ∈ evs →
  ∃ flags, build heap (Modules config) (Modules config) false
                 (new_instance config flags) = (evs, r).
Proof.
  unfold NewAppInstance. destruct (AppFlags config) as [flags|].
  - destruct (if Parsed flags then _ else _) as [flags' [err|]].
    + by intros [= <- <-] ?%elem_of_nil.
    + intros Hb _. by exists flags'.
  - by intros [= <- <-] ?%elem_of_nil.
Qed.

(** An instance that [NewAppInstance] returns has a logger, its
    creation-order list holds the drivers built, in the order they were
    built, and nothing was closed on the way. *)
Lemma NewAppInstance_Ok (config : AppConfig) (evs : list event)
    (this : AppInstance) :
  NewAppInstance heap config = (evs, Ok this) →
  is_Some (Logger this) ∧ byorder this = built evs ∧ closed evs = [] ∧
  NoDup (singleton_types heap (Modules config)).
Proof.
  unfold NewAppInstance. destruct (AppFlags config) as [flags|]; [|done].
  destruct (if Parsed flags then _ else _) as [flags' [err|]]; [done|].
  intros Hb. apply build_Ok in Hb as (? & ? & Hbo & ? & _); [|done].
  by rewrite Hbo.
Qed.

(** ** The claims on teardown and on the instance builder *)

(** [Close] on an instance that has a logger: the drivers closed are those
    of the creation-order list, last first. *)
Lemma AppInstance_Close_closed (this : AppInstance) :
  is_Some (Logger this) →
  ∃ evs, AppInstance_Close this = (evs, Ok (cleared this, None)) ∧
         closed evs = reverse (byorder this).
Proof.
  intros [logger HL]. unfold AppInstance_Close. rewrite HL.
  destruct (close_loop_closed (byorder this) (length (byorder this)))
    as (evs & -> & Hevs); [done|].
  rewrite take_ge in Hevs by done.
  by exists (EvLog LDebug LogClose :: evs).
Qed.

(** C1: teardown calls the close operation of every driver of the
    creation-order list exactly once, the driver created last first and the
    one created first last, and goes on to the remaining drivers whatever a
    close operation returns.  [Close] logs through the logger of the
    instance before its loop, so the instance has to have one. *)
Theorem Close_reverse_creation_order (this : AppInstance) :
  is_Some (Logger this) →
  ∃ evs, AppInstance_Close this = (evs, Ok (cleared this, None)) ∧
         closed evs = reverse (byorder this) ∧
         closed evs ≡ₚ byorder this.
Proof.
  intros (evs & Hclose & Hevs)%AppInstance_Close_closed.
  exists evs. split_and!; [done | done |].
  rewrite Hevs. apply reverse_Permutation.
Qed.

(** Teardown of an instance that [NewAppInstance] returned closes the
    drivers built, last built first. *)
Corollary Close_after_NewAppInstance (config : AppConfig)
    (evs0 : list event) (this : AppInstance) :
  NewAppInstance heap config = (evs0, Ok this) →
  ∃ evs, AppInstance_Close this = (evs, Ok (cleared this, None)) ∧
         closed evs = reverse (built evs0).
Proof.
  intros (HL & Hbo & _)%NewAppInstance_Ok.
  destruct (AppInstance_Close_closed this HL) as (evs & ? & Hc).
  exists evs. by rewrite <- Hbo.
Qed.

(** C3, as the code has it: [setModuleInstance] appends the driver to the
    creation-order list after both registrations went through.  When it
    returns the error for a name or a type that is taken, the list is what
    it was; on every other outcome (success, or a driver that cannot be
    cast to the interface of its type) the driver is the new last
    element. *)
Theorem setModuleInstance_byorder (p : ModuleRef) (module : Module)
    (driver : Driver) (this : AppInstance) :
  byorder (setModuleInstance p module driver this).1 =
    if registration_error (setModuleInstance p module driver this).2
    then byorder this
    else byorder this ++ [driver].
Proof.
  rewrite setModuleInstance_cases. cbv zeta.
  destruct (byname this !! Name module); [done|].
  destruct (singleton_type (Type_ module));
    [destruct (bytype this !! Type_ module); [done|]|].
  all: match goal with
       | |- context [setModuleInstance_tail ?p ?m ?d ?t] =>
           destruct (setModuleInstance_tail_tables p m d t)
             as (_ & _ & -> & ->)
       end; done.
Qed.

(** C4, as the code has it: a driver for a module whose name is free and
    whose singleton-constrained type is taken is refused with the
    duplicate-type error; the by-type map, the creation-order list and the
    convenience fields stay as they were and the occupant keeps the type,
    but the by-name map has by then been given the entry of the refused
    module (no entry it held is changed).  No call ever changes or removes
    an entry of either map, and in an instance that [NewAppInstance]
    returns no two constructed modules have the same singleton-constrained
    type. *)
Theorem setModuleInstance_duplicate_type (p : ModuleRef) (module : Module)
    (driver occupant : Driver) (this : AppInstance) :
  (byname this !! Name module = None →
   singleton_type (Type_ module) = true →
   bytype this !! Type_ module = Some occupant →
   (setModuleInstance p module driver this).2
     = Some (ErrDuplicateType (Type_ module)) ∧
   bytype (setModuleInstance p module driver this).1 = bytype this ∧
   bytype (setModuleInstance p module driver this).1 !! Type_ module
     = Some occupant ∧
   byorder (setModuleInstance p module driver this).1 = byorder this ∧
   (∀ i, field i (setModuleInstance p module driver this).1 = field i this) ∧
   byname (setModuleInstance p module driver this).1
     = <[Name module := driver]> (byname this)) ∧
  byname this ⊆ byname (setModuleInstance p module driver this).1 ∧
  bytype this ⊆ bytype (setModuleInstance p module driver this).1 ∧
  (∀ config evs built_instance,
     NewAppInstance heap config = (evs, Ok built_instance) →
     NoDup (singleton_types heap (Modules config))).
Proof.
  split_and!.
  - intros Hname Hsingle Htype. rewrite setModuleInstance_cases. cbv zeta.
    rewrite Hname, Hsingle, Htype. simpl.
    split_and!; [done | done | done | done | by intros [] | done].
  - apply setModuleInstance_grows.
  - apply setModuleInstance_grows.
  - intros config evs built_instance Hb.
    by apply NewAppInstance_Ok in Hb as (_ & _ & _ & ?).
Qed.

(** C5, as the code has it: when the construct hook of a module returns an
    error, the build stops there (the call of the hook is the last thing
    that happens) and returns that error, and in the whole build no driver
    was closed: neither the one the failed hook may have returned with its
    error nor one built before. *)
Theorem NewAppInstance_hook_failure (config : AppConfig)
    (evs : list event) (r : result AppInstance)
    (p : ModuleRef) (od : option Driver) (e : error) :
  NewAppInstance heap config = (evs, r) →
  EvNew p od (Some e) ∈ evs →
  r = Err e ∧ last evs = Some (EvNew p od (Some e)) ∧ closed evs = [].
Proof.
  intros Hb Hin. destruct (NewAppInstance_build _ _ _ _ Hb Hin) as [flags Hb'].
  by destruct (build_hook_verdict _ _ _ _ _ _ _ _ _ Hb' Hin)
    as (module & new & _ & _ & Hv).
Qed.

(** C8: when the flag set of the configuration has not been parsed and
    parsing the arguments fails, [NewAppInstance] returns the error of the
    parser and nothing else has happened: no construct hook was called and
    no driver exists. *)
Theorem NewAppInstance_parse_failure (config : AppConfig) (flags flags' : Flags)
    (e : error) :
  AppFlags config = Some flags →
  Parsed flags = false →
  Parse flags (AppArgs config) = (flags', Some e) →
  NewAppInstance heap config = ([], Err e) ∧
  constructed (NewAppInstance heap config).1 = [] ∧
  built (NewAppInstance heap config).1 = [].
Proof.
  intros Hflags Hparsed Hparse. unfold NewAppInstance.
  by rewrite Hflags, Hparsed, Hparse.
Qed.

(** C9: when the construct hook of a module returns a nil driver and a nil
    error, the build stops there and returns the error whose text is the
    name of the module followed by ": New: return nil"; no instance is
    returned and nothing is closed. *)
Theorem NewAppInstance_nil_driver (config : AppConfig)
    (evs : list event) (r : result AppInstance) (p : ModuleRef) :
  NewAppInstance heap config = (evs, r) →
  EvNew p None None ∈ evs →
  ∃ module, heap p = Some module ∧
            r = Err (ErrNewReturnNil (Name module)) ∧
            error_text (ErrNewReturnNil (Name module))
              = Some (Name module +:+ ": New: return nil") ∧
            last evs = Some (EvNew p None None) ∧ closed evs = [].
Proof.
  intros Hb Hin. destruct (NewAppInstance_build _ _ _ _ Hb Hin) as [flags Hb'].
  destruct (build_hook_verdict _ _ _ _ _ _ _ _ _ Hb' Hin)
    as (module & new & Hp & _ & Hr & Hlast & Hclosed).
  by exists module.
Qed.

Lemma config_hooks_Modules (modules : list ModuleRef)
    (config config' : AppConfig) :
  hooks_keep_modules heap →
  config_hooks heap modules config = Ok config' →
  Modules config' = Modules config.
Proof.
  intros Hkeep. revert config.
  induction modules as [|p rest IH]; intros config; simpl.
  - by intros [= <-].
  - destruct (heap p) as [module|] eqn:Hp; [|done].
    destruct (Config module) as [hook|] eqn:Hhook; [|apply IH].
    intros ->%IH. by eapply Hkeep.
Qed.

(** The configuration that [NewAppConfig] returns after an error cannot be
    built into an instance. *)
Lemma NewAppInstance_zero :
  NewAppInstance heap AppConfig_zero = ([], Err ErrAppError).
Proof. done. Qed.

(** C10: a configuration that [NewAppConfig] returns is either the empty
    one it returns after printing an error, or its module list starts with
    what the resolver gives for "logger", followed by modules that are not
    among those; the [Config] hooks are taken to keep to their contract and
    leave the module list alone. *)
Theorem NewAppConfig_logger_first (arg0 : string) (args names : list string)
    (evs : list event) (config : AppConfig) :
  hooks_keep_modules heap →
  NewAppConfig heap ModuleWithDependencies path_Base arg0 args names
    = (evs, Ok config) →
  (∃ err, evs = [EvStderr err] ∧ config = AppConfig_zero) ∨
  (evs = [] ∧
   ∃ requested,
     (ModuleWithDependencies "logger").2 = None ∧
     Modules config = (ModuleWithDependencies "logger").1 ++ requested ∧
     ∀ m, m ∈ requested → m ∉ (ModuleWithDependencies "logger").1).
Proof.
  intros Hkeep. unfold NewAppConfig.
  destruct (ModuleWithDependencies "logger") as [logger_modules [err|]];
    [intros [= <- <-]; left; by exists err|].
  destruct (AppendModulesByName _ logger_modules names)
    as [all_modules [err|]] eqn:Happend;
    [intros [= <- <-]; left; by exists err|].
  intros [= <- Hhooks]. right. split; [done|].
  apply config_hooks_Modules in Hhooks; [|done]. simpl in Hhooks.
  destruct (AppendModulesByName_prefix _ _ _ _ Happend)
    as (added & -> & Hadded).
  by exists added.
Qed.

(** ** Running tasks *)

Lemma main_returns_app (evs1 evs2 : list event) :
  main_returns (evs1 ++ evs2) = main_returns evs1 ++ main_returns evs2.
Proof.
  induction evs1 as [|ev evs1 IH]; [done|].
  destruct ev; simpl; by rewrite ?IH.
Qed.

Lemma main_returns_elem_of (evs : list event) (e : option error) :
  EvMainReturn e ∈ evs ↔ e ∈ main_returns evs.
Proof.
  induction evs as [|ev evs IH]; [by rewrite !elem_of_nil|].
  rewrite elem_of_cons, IH.
  destruct ev; simpl; rewrite ?elem_of_cons;
    (split; [intros [?|?]; [try discriminate|]|intros ?]; auto);
    try (left; congruence); try tauto.
  match goal with H : _ ∨ _ |- _ => destruct H; [left; congruence | by right] end.
Qed.

Lemma done_after_signal_true (evs : list event) :
  done_after_signal true evs = true.
Proof. induction evs as [|ev evs IH]; [done|]. by destruct ev. Qed.

Lemma log_if_logger_silent (this : AppInstance) (lvl : LogLevel)
    (line : LogLine) (b : bool) (tail : list event) :
  main_returns (log_if_logger this lvl line ++ tail) = main_returns tail ∧
  done_after_signal b (log_if_logger this lvl line ++ tail)
    = done_after_signal b tail.
Proof. unfold log_if_logger. by destruct (has_logger this). Qed.

(** The [Run] hooks neither return for the main task nor deliver [DONE]. *)
Lemma run_hooks_silent (this : AppInstance) (ms : list ModuleRef)
    (b : bool) (tail : list event) :
  main_returns ((run_hooks heap this ms).1 ++ tail) = main_returns tail ∧
  done_after_signal b ((run_hooks heap this ms).1 ++ tail)
    = done_after_signal b tail.
Proof.
  induction ms as [|p rest IH]; simpl; [done|].
  destruct (heap p) as [module|]; [|done].
  destruct (Run module) as [run|]; [|done].
  unfold emit. simpl. by destruct (run this (byname this !! Name module)).
Qed.

Section Schedules.
Variable this : AppInstance.
Variable main_task : Task.
Variable background_tasks : list Task.

Abbreviation exec' := (exec this main_task background_tasks).
Abbreviation step' := (step this main_task background_tasks).

(** Once [Run] has returned nothing more happens. *)
Lemma exec_after_return (schedule : list choice) (st st' : run_state)
    (evs : list event) :
  is_Some (rs_result st) →
  exec' schedule st = Some (evs, st') → evs = [] ∧ st' = st.
Proof.
  intros [r Hr]. destruct schedule as [|c rest]; simpl.
  - by intros [= <- <-].
  - unfold step. rewrite Hr. by destruct (rs_crashed st).
Qed.

(** What [Run] returns is what the main task returned. *)
Lemma exec_result (schedule : list choice) (st st' : run_state)
    (evs : list event) (r : option error) :
  exec' schedule st = Some (evs, st') →
  rs_result st = None → rs_result st' = Some r →
  match rs_main st with
  | Running _ => main_returns evs = [r]
  | Returned e => r = e ∧ main_returns evs = []
  end.
Proof.
  revert st evs. induction schedule as [|c rest IH]; intros st evs; simpl.
  { intros [= <- <-]. congruence. }
  destruct (step' c st) as [[evs1 st1]|] eqn:Hstep; [|done].
  destruct (exec' rest st1) as [[evs2 st2]|] eqn:Hrest; [|done].
  intros [= <- <-] Hnone Hres. specialize (IH _ _ Hrest).
  unfold step in Hstep.
  destruct (rs_crashed st); [done|]. rewrite Hnone in Hstep.
  destruct c as [k|i k| |].
  - unfold step_main in Hstep.
    destruct (rs_main st) as [pc|e]; [|done].
    destruct (task_moves main_task pc !! k) as [[next|next|err]|]; [| | |done].
    + injection Hstep as <- <-. by apply IH.
    + destruct (rs_coordinator st); try done.
      injection Hstep as <- <-. simpl.
      rewrite (proj1 (log_if_logger_silent _ _ _ false _)). by apply IH.
    + injection Hstep as <- <-. simpl in *.
      destruct IH as [-> Hrets]; [done..|].
      destruct (decide _); simpl;
        [rewrite (proj1 (log_if_logger_silent _ _ _ false _))|];
        by rewrite Hrets.
  - unfold step_background in Hstep.
    destruct (background_tasks !! i) as [t|]; [|done].
    destruct (rs_background st !! i) as [[pc|e]|]; [|done..].
    destruct (task_moves t pc !! k) as [[next|next|err]|]; [| | |done].
    + injection Hstep as <- <-. by apply IH.
    + destruct (rs_coordinator st) as [|j|j|]; try done.
      destruct (decide (j = i)); [|done].
      injection Hstep as <- <-. by apply IH.
    + injection Hstep as <- <-. simpl in *.
      destruct err as [e|];
        [rewrite (proj1 (log_if_logger_silent _ _ _ false _))|];
        by apply IH.
  - unfold step_coordinator in Hstep.
    destruct (rs_coordinator st) as [|i|i|]; try done.
    destruct (decide _); [destruct (has_logger this)|];
      injection Hstep as <- <-; by apply IH.
  - unfold step_wait in Hstep. clear IH.
    destruct (rs_main st) as [pc|e]; [done|].
    destruct (forallb _ _); [|done].
    injection Hstep as <- <-.
    apply exec_after_return in Hrest as [-> ->]; [|by eexists].
    simpl in Hres. injection Hres as <-.
    rewrite app_nil_r. unfold log_if_logger. by destruct (has_logger this).
Qed.

(** While the coordinator waits on [channels[0]] no [DONE] is delivered:
    the first one comes after the main task has sent on that channel. *)
Lemma exec_done_after_signal (schedule : list choice) (st st' : run_state)
    (evs : list event) :
  exec' schedule st = Some (evs, st') →
  rs_coordinator st = CoWaitMain →
  done_after_signal false evs = true.
Proof.
  revert st evs. induction schedule as [|c rest IH]; intros st evs; simpl.
  { by intros [= <- <-]. }
  destruct (step' c st) as [[evs1 st1]|] eqn:Hstep; [|done].
  destruct (exec' rest st1) as [[evs2 st2]|] eqn:Hrest; [|done].
  intros [= <- <-] Hwait. specialize (IH _ _ Hrest).
  unfold step in Hstep.
  destruct (rs_crashed st); [done|].
  destruct (rs_result st); [done|].
  destruct c as [k|i k| |].
  - unfold step_main in Hstep.
    destruct (rs_main st) as [pc|e]; [|done].
    destruct (task_moves main_task pc !! k) as [[next|next|err]|]; [| | |done].
    + injection Hstep as <- <-. by apply IH.
    + rewrite Hwait in Hstep. injection Hstep as <- <-. simpl.
      apply done_after_signal_true.
    + injection Hstep as <- <-. simpl in *.
      destruct (decide _); simpl;
        [rewrite (proj2 (log_if_logger_silent _ _ _ false _))|];
        by apply IH.
  - unfold step_background in Hstep.
    destruct (background_tasks !! i) as [t|]; [|done].
    destruct (rs_background st !! i) as [[pc|e]|]; [|done..].
    destruct (task_moves t pc !! k) as [[next|next|err]|]; [| | |done].
    + injection Hstep as <- <-. by apply IH.
    + by rewrite Hwait in Hstep.
    + injection Hstep as <- <-. simpl in *.
      destruct err as [e|];
        [rewrite (proj2 (log_if_logger_silent _ _ _ false _))|];
        by apply IH.
  - unfold step_coordinator in Hstep. by rewrite Hwait in Hstep.
  - unfold step_wait in Hstep.
    destruct (rs_main st) as [pc|e]; [done|].
    destruct (forallb _ _); [|done].
    injection Hstep as <- <-.
    apply exec_after_return in Hrest as [-> ->]; [|by eexists].
    rewrite app_nil_r. unfold log_if_logger. by destruct (has_logger this).
Qed.

End Schedules.

Lemma exec_app (this : AppInstance) (main_task : Task)
    (background_tasks : list Task) (s1 s2 : list choice) (st : run_state) :
  exec this main_task background_tasks (s1 ++ s2) st =
    match exec this main_task background_tasks s1 st with
    | None => None
    | Some (evs1, st1) =>
        match exec this main_task background_tasks s2 st1 with
        | None => None
        | Some (evs2, st2) => Some (evs1 ++ evs2, st2)
        end
    end.
Proof.
  revert st. induction s1 as [|c s1 IH]; intros st; simpl.
  - by destruct (exec _ _ _ s2 st) as [[evs2 st2]|].
  - destruct (step _ _ _ c st) as [[evs st']|]; [|done].
    rewrite IH. destruct (exec _ _ _ s1 st') as [[evs1 st1]|]; [|done].
    destruct (exec _ _ _ s2 st1) as [[evs2 st2]|]; [|done].
    by rewrite app_assoc.
Qed.

(** ** Cooperating tasks let [Run] return *)

Section Cooperative.
Variable this : AppInstance.
Variable err : option error.
Variable errs : list (option error).

Abbreviation exec_coop :=
  (exec this (signalling err) (waiting <$> errs)).

Lemma served_next (i : nat) (e : option error) :
  errs !! i = Some e →
  <[i := Returned e]> (<[i := Running 1]> (served errs i)) = served errs (S i).
Proof.
  intros Hi. rewrite list_insert_insert_eq. apply list_eq. intros j.
  assert (i < length (served errs i)) as Hlen.
  { unfold served. rewrite length_imap. by eapply lookup_lt_Some. }
  destruct (decide (i = j)) as [<-|Hne].
  - rewrite list_lookup_insert_eq by done. unfold served.
    rewrite list_lookup_imap, Hi. simpl. by rewrite decide_True by lia.
  - rewrite list_lookup_insert_ne by done. unfold served.
    rewrite !list_lookup_imap. destruct (errs !! j); [|done]. simpl.
    repeat case_decide; done || lia.
Qed.

Lemma serve_one (i : nat) (e : option error) :
  has_logger this = true →
  errs !! i = Some e →
  ∃ evs, exec_coop [RunCoordinator; RunBackground i 0; RunBackground i 0]
           (serving errs i) = Some (evs, serving errs (S i)).
Proof.
  intros Hlogger Hi.
  assert (i < length errs) as Hlt by (by eapply lookup_lt_Some).
  simpl. unfold step at 1. simpl. unfold step_coordinator. simpl.
  rewrite length_fmap, decide_True by done. rewrite Hlogger.
  unfold step at 1. simpl. unfold step_background. simpl.
  rewrite list_lookup_fmap, Hi. simpl.
  unfold served at 1. rewrite list_lookup_imap, Hi. simpl.
  rewrite decide_False by lia. simpl. rewrite decide_True by done.
  unfold step at 1. simpl. unfold step_background. simpl.
  rewrite list_lookup_fmap, Hi. simpl.
  rewrite list_lookup_insert_eq
    by (unfold served; by rewrite length_imap).
  simpl. rewrite (served_next i e Hi). eauto.
Qed.

Lemma serve_all (k i : nat) :
  has_logger this = true →
  i + k = length errs →
  ∃ evs,
    exec_coop
      (flat_map (fun i => [RunCoordinator; RunBackground i 0;
                           RunBackground i 0]) (seq i k))
      (serving errs i) = Some (evs, serving errs (length errs)).
Proof.
  intros Hlogger. revert i. induction k as [|k IH]; intros i Hik.
  - replace (length errs) with i by lia. by exists [].
  - destruct (lookup_lt_is_Some_2 errs i) as [e Hi]; [lia|].
    destruct (serve_one i e Hlogger Hi) as [evs1 H1].
    destruct (IH (S i)) as [evs2 H2]; [lia|].
    change (flat_map _ (seq i (S k)))
      with ([RunCoordinator; RunBackground i 0; RunBackground i 0]
            ++ flat_map (fun i => [RunCoordinator; RunBackground i 0;
                                   RunBackground i 0]) (seq (S i) k)).
    rewrite exec_app, H1, H2. eauto.
Qed.

Lemma served_all_returned :
  forallb is_returned (served errs (length errs)) = true.
Proof.
  apply Is_true_true, forallb_True, Forall_lookup_2. intros j t.
  unfold served. rewrite list_lookup_imap.
  destruct (errs !! j) as [e|] eqn:Hj; [|done]. simpl.
  apply lookup_lt_Some in Hj. rewrite decide_True by done.
  by intros [= <-].
Qed.

(** With a logger in place, the cooperating tasks bring [Run] to its
    return, and it returns what the main task returned. *)
Lemma exec_cooperative :
  has_logger this = true →
  ∃ evs st,
    exec_coop (drain_schedule (length errs))
      (initial (signalling err) (waiting <$> errs)) = Some (evs, st) ∧
    rs_result st = Some err.
Proof.
  intros Hlogger. unfold drain_schedule.
  destruct (serve_all (length errs) 0 Hlogger) as [evs Hserve]; [done|].
  assert (initial (signalling err) (waiting <$> errs)
          = {| rs_main := Running 0; rs_background := served errs 0;
               rs_coordinator := CoWaitMain; rs_crashed := false;
               rs_result := None |}) as ->.
  { unfold initial. f_equal. apply list_eq. intros j. unfold served.
    rewrite !list_lookup_fmap, list_lookup_imap.
    by destruct (errs !! j). }
  cbn [exec]. unfold step at 1. simpl.
  fold (serving errs 0). rewrite exec_app, Hserve.
  simpl. unfold step at 1. simpl. unfold step_coordinator. simpl.
  rewrite length_fmap, decide_False by lia.
  unfold step at 1. simpl.
  unfold step at 1. simpl. unfold step_wait. simpl.
  rewrite served_all_returned. eauto.
Qed.

End Cooperative.

(** [Run] returns when its tasks cooperate: no [Run] hook fails, the
    instance has a logger, the main task signals and then returns [err],
    and every background task waits for [DONE] and then returns. *)
Lemma Run_cooperative_returns (this : AppInstance) (err : option error)
    (errs : list (option error)) :
  (run_hooks heap this (modules this)).2 = Ok tt →
  is_Some (Logger this) →
  (AppInstance_Run heap this (fun _ => signalling err)
     ((fun e _ => waiting e) <$> errs) (drain_schedule (length errs))).2
  = Finished err.
Proof.
  intros Hhooks Hlogger. unfold AppInstance_Run.
  destruct (run_hooks heap this (modules this)) as [hook_evs r].
  simpl in Hhooks. subst r.
  rewrite <- list_fmap_compose.
  change ((λ t : AppInstance → Task, t this) ∘ (λ e _, waiting e))
    with waiting.
  destruct (exec_cooperative this err errs) as (evs & st & -> & Hr).
  { by apply bool_decide_eq_true_2. }
  simpl. by rewrite Hr.
Qed.

(** When a [Run] hook fails, [Run] returns its error and starts no task. *)
Lemma Run_hook_failure (this : AppInstance) (main_task : MainTask)
    (background_tasks : list BackgroundTask) (schedule : list choice)
    (e : error) :
  (run_hooks heap this (modules this)).2 = Err e →
  AppInstance_Run heap this main_task background_tasks schedule
    = ((run_hooks heap this (modules this)).1, Finished (Some e)) ∧
  main_returns (run_hooks heap this (modules this)).1 = [].
Proof.
  unfold AppInstance_Run.
  destruct (run_hooks heap this (modules this)) as [hook_evs r] eqn:Hhooks.
  simpl. intros ->. split; [done|].
  pose proof (run_hooks_silent this (modules this) false []) as [Hrets _].
  by rewrite Hhooks, app_nil_r in Hrets.
Qed.

(** C2, as the code has it: under every schedule, every [DONE] delivered
    to a background task comes after the main task has sent on its own
    channel, [channels[0]]; the coordinator waits for that send and not for
    the return of the main task. *)
Theorem Run_done_after_main_signal (this : AppInstance)
    (main_task : MainTask) (background_tasks : list BackgroundTask)
    (schedule : list choice) :
  done_after_signal false
    (AppInstance_Run heap this main_task background_tasks schedule).1 = true.
Proof.
  unfold AppInstance_Run.
  pose proof (run_hooks_silent this (modules this) false) as Hsilent.
  destruct (run_hooks heap this (modules this)) as [hook_evs [[]|e|]];
    simpl in *.
  - destruct (exec _ _ _ _ _) as [[evs st]|] eqn:Hexec; simpl.
    + rewrite (proj2 (Hsilent evs)).
      eapply exec_done_after_signal; [exact Hexec | reflexivity].
    + destruct (Hsilent []) as [_ H]. by rewrite app_nil_r in H.
  - destruct (Hsilent []) as [_ H]. by rewrite app_nil_r in H.
  - destruct (Hsilent []) as [_ H]. by rewrite app_nil_r in H.
Qed.

(** C6: when [Run] returns, its value is the error the main task returned
    (nil when the main task returned nil), whatever the background tasks
    returned: the main task returned once, before [Run] did, and that is
    the value.  (A run in which a [Run] hook fails starts no task and
    returns the error of the hook, see [Run_hook_failure].) *)
Theorem Run_returns_main_error (this : AppInstance) (main_task : MainTask)
    (background_tasks : list BackgroundTask) (schedule : list choice)
    (evs : list event) (r : option error) :
  AppInstance_Run heap this main_task background_tasks schedule
    = (evs, Finished r) →
  (∀ e, EvMainReturn e ∈ evs → r = e) ∧
  ((run_hooks heap this (modules this)).2 = Ok tt → main_returns evs = [r]).
Proof.
  unfold AppInstance_Run.
  pose proof (run_hooks_silent this (modules this) false) as Hsilent.
  destruct (run_hooks heap this (modules this)) as [hook_evs [[]|e|]];
    simpl in *; [| |done].
  - destruct (exec _ _ _ _ _) as [[evs' st]|] eqn:Hexec; [|done].
    intros [= <- Hres].
    assert (rs_result st = Some r) as Hr.
    { destruct (rs_result st); [congruence|]. by destruct (rs_crashed st). }
    apply exec_result with (r := r) in Hexec; [|done..]. simpl in Hexec.
    assert (main_returns (hook_evs ++ evs') = [r]) as Hrets
      by (by rewrite (proj1 (Hsilent evs'))).
    split; [|done].
    intros e He%main_returns_elem_of. rewrite Hrets in He.
    by apply list_elem_of_singleton in He.
  - intros [= <- <-]. split; [|done].
    intros e' He%main_returns_elem_of.
    specialize (Hsilent []). rewrite app_nil_r in Hsilent.
    rewrite (proj1 Hsilent) in He. by apply elem_of_nil in He.
Qed.

End Properties.

(** * The claims on the sample programs *)

Section Samples.
#[local] Existing Instance Demo.toy.

(** Teardown of the instance holding logger, bus and sensor: the bus fails
    to close and the logger is closed all the same. *)
Lemma Close_reverse_creation_order_witness :
  is_Some (Logger Demo.three_drivers) ∧
  ∃ evs,
    AppInstance_Close Demo.three_drivers
      = (evs, Ok (cleared Demo.three_drivers, None)) ∧
    closed evs = reverse (byorder Demo.three_drivers) ∧
    closed evs ≡ₚ byorder Demo.three_drivers.
Proof.
  assert (is_Some (Logger Demo.three_drivers)) as H
    by (vm_compute; eauto).
  split; [exact H | exact (Close_reverse_creation_order _ H)].
Defined.

Example Close_three_drivers :
  closed (AppInstance_Close Demo.three_drivers).1
    = [Demo.sensor_driver; Demo.bus_driver; Demo.logger_driver] ∧
  byorder Demo.three_drivers
    = [Demo.logger_driver; Demo.bus_driver; Demo.sensor_driver].
Proof. by vm_compute. Qed.

(** A second logger, and a second module named "logger", offered to an
    instance that holds a logger: each is refused, and the refused driver
    is not in the creation-order list. *)
Lemma refused_driver_not_in_byorder :
  let by_type := setModuleInstance 4 Demo.second_logger_module
                   Demo.second_logger_driver Demo.with_logger in
  let by_name := setModuleInstance 1 Demo.logger_module
                   Demo.second_logger_driver Demo.with_logger in
  by_type.2 = Some (ErrDuplicateType MODULE_TYPE_LOGGER) ∧
  byorder by_type.1 = [Demo.logger_driver] ∧
  bool_decide (Demo.second_logger_driver ∈ byorder by_type.1) = false ∧
  by_name.2 = Some (ErrDuplicateName "logger") ∧
  byorder by_name.1 = [Demo.logger_driver] ∧
  bool_decide (Demo.second_logger_driver ∈ byorder by_name.1) = false.
Proof. by vm_compute. Qed.

(** The second logger is refused for its type after the by-name map has
    taken its name. *)
Lemma duplicate_type_changes_byname :
  let refused := setModuleInstance 4 Demo.second_logger_module
                   Demo.second_logger_driver Demo.with_logger in
  refused.2 = Some (ErrDuplicateType MODULE_TYPE_LOGGER) ∧
  byname Demo.with_logger !! "logger2" = None ∧
  byname refused.1 !! "logger2" = Some Demo.second_logger_driver.
Proof. by vm_compute. Qed.

Lemma setModuleInstance_duplicate_type_witness :
  byname Demo.with_logger !! "logger2" = None ∧
  singleton_type MODULE_TYPE_LOGGER = true ∧
  bytype Demo.with_logger !! MODULE_TYPE_LOGGER = Some Demo.logger_driver ∧
  let refused := setModuleInstance 4 Demo.second_logger_module
                   Demo.second_logger_driver Demo.with_logger in
  refused.2 = Some (ErrDuplicateType MODULE_TYPE_LOGGER) ∧
  bytype refused.1 = bytype Demo.with_logger ∧
  bytype refused.1 !! MODULE_TYPE_LOGGER = Some Demo.logger_driver ∧
  byorder refused.1 = byorder Demo.with_logger ∧
  (∀ i, field i refused.1 = field i Demo.with_logger) ∧
  byname refused.1
    = <["logger2" := Demo.second_logger_driver]> (byname Demo.with_logger).
Proof.
  assert (byname Demo.with_logger !! "logger2" = None) as H1
    by (by vm_compute).
  assert (singleton_type MODULE_TYPE_LOGGER = true) as H2 by (by vm_compute).
  assert (bytype Demo.with_logger !! MODULE_TYPE_LOGGER
          = Some Demo.logger_driver) as H3 by (by vm_compute).
  split_and!; [exact H1 | exact H2 | exact H3 | ..];
    apply (proj1 (setModuleInstance_duplicate_type Demo.heap 4
                    Demo.second_logger_module Demo.second_logger_driver
                    Demo.logger_driver Demo.with_logger) H1 H2 H3).
Defined.

(** A build in which the hook of the third module returns a driver and an
    error: the driver is not closed. *)
Lemma failed_hook_driver_not_closed :
  NewAppInstance Demo.heap (Demo.config_of [1; 2; 5; 3] [])
    = ([EvNew 1 (Some Demo.logger_driver) None;
        EvLog LDebug (LogOpenModules [1; 2; 5; 3]);
        EvLog LDebug2 (LogModuleNew 2);
        EvNew 2 (Some Demo.bus_driver) None;
        EvLog LDebug2 (LogModuleNew 5);
        EvNew 5 (Some Demo.broken_driver)
          (Some (ErrExternal "no such device"))],
       Err (ErrExternal "no such device")) ∧
  closed (NewAppInstance Demo.heap (Demo.config_of [1; 2; 5; 3] [])).1 = [].
Proof. by vm_compute. Qed.

Lemma NewAppInstance_hook_failure_witness :
  let run := NewAppInstance Demo.heap (Demo.config_of [1; 2; 5; 3] []) in
  EvNew 5 (Some Demo.broken_driver) (Some (ErrExternal "no such device"))
    ∈ run.1 ∧
  run.2 = Err (ErrExternal "no such device") ∧
  last run.1 = Some (EvNew 5 (Some Demo.broken_driver)
                       (Some (ErrExternal "no such device"))) ∧
  closed run.1 = [].
Proof.
  cbv zeta.
  assert (EvNew 5 (Some Demo.broken_driver)
            (Some (ErrExternal "no such device"))
          ∈ (NewAppInstance Demo.heap (Demo.config_of [1; 2; 5; 3] [])).1)
    as Hin by (vm_compute; set_solver).
  split; [exact Hin|].
  exact (NewAppInstance_hook_failure Demo.heap _ _ _ _ _ _
           (surjective_pairing _) Hin).
Defined.

(** A build with an argument that names no flag. *)
Lemma NewAppInstance_parse_failure_witness :
  let config := Demo.config_of [1; 2; 3] ["-bogus"] in
  AppFlags config = Some Demo.flags ∧
  Parsed Demo.flags = false ∧
  Parse Demo.flags (AppArgs config)
    = (Demo.flags,
       Some (ErrExternal "flag provided but not defined: -bogus")) ∧
  NewAppInstance Demo.heap config
    = ([], Err (ErrExternal "flag provided but not defined: -bogus")).
Proof.
  cbv zeta.
  assert (Parse Demo.flags (AppArgs (Demo.config_of [1; 2; 3] ["-bogus"]))
          = (Demo.flags,
             Some (ErrExternal "flag provided but not defined: -bogus")))
    as Hparse by (by vm_compute).
  split_and!; [reflexivity | reflexivity | exact Hparse |].
  exact (proj1 (NewAppInstance_parse_failure Demo.heap
                  (Demo.config_of [1; 2; 3] ["-bogus"]) Demo.flags Demo.flags
                  _ eq_refl eq_refl Hparse)).
Defined.

(** A build in which the hook of the second module returns nil, nil. *)
Lemma NewAppInstance_nil_driver_witness :
  let run := NewAppInstance Demo.heap (Demo.config_of [1; 6; 3] []) in
  EvNew 6 None None ∈ run.1 ∧
  ∃ module, Demo.heap 6 = Some module ∧
            run.2 = Err (ErrNewReturnNil (Name module)) ∧
            error_text (ErrNewReturnNil (Name module))
              = Some (Name module +:+ ": New: return nil") ∧
            last run.1 = Some (EvNew 6 None None) ∧ closed run.1 = [].
Proof.
  cbv zeta.
  assert (EvNew 6 None None
          ∈ (NewAppInstance Demo.heap (Demo.config_of [1; 6; 3] [])).1)
    as Hin by (vm_compute; set_solver).
  split; [exact Hin|].
  exact (NewAppInstance_nil_driver Demo.heap _ _ _ _
           (surjective_pairing _) Hin).
Defined.

Example NewAppInstance_absent_module :
  NewAppInstance Demo.heap (Demo.config_of [1; 6; 3] [])
    = ([EvNew 1 (Some Demo.logger_driver) None;
        EvLog LDebug (LogOpenModules [1; 6; 3]);
        EvLog LDebug2 (LogModuleNew 6);
        EvNew 6 None None],
       Err (ErrNewReturnNil "absent")) ∧
  error_text (ErrNewReturnNil "absent") = Some "absent: New: return nil".
Proof. by vm_compute. Qed.

(** Three names that lead to the logger, two of them to the bus, appended
    to a list that holds the logger. *)
Lemma AppendModulesByName_no_duplicates_witness :
  NoDup [1] ∧
  AppendModulesByName Demo.ModuleWithDependencies [1]
    ["sensor"; "bus"; "sensor"] = ([1; 2; 3], None) ∧
  (∀ m, occurrences m (appendModules [1] [1; 2; 3]) =
          if inModules [1] m then occurrences m [1]
          else if inModules [1; 2; 3] m then 1 else 0) ∧
  NoDup [1; 2; 3] ∧
  (∀ m, m ∈ [1] → occurrences m [1; 2; 3] = 1) ∧
  (∀ name m, name ∈ ["sensor"; "bus"; "sensor"] →
             m ∈ (Demo.ModuleWithDependencies name).1 →
             occurrences m [1; 2; 3] = 1).
Proof.
  assert (NoDup [1]) as Hnd by apply NoDup_singleton.
  assert (AppendModulesByName Demo.ModuleWithDependencies [1]
            ["sensor"; "bus"; "sensor"] = ([1; 2; 3], None)) as Happend
    by (by vm_compute).
  split_and!; [exact Hnd | exact Happend | ..].
  - exact (proj1 (AppendModulesByName_no_duplicates
                    Demo.ModuleWithDependencies [1] [1; 2; 3]
                    ["sensor"; "bus"; "sensor"] [1; 2; 3])).
  - exact (proj1 (proj2 (AppendModulesByName_no_duplicates
                    Demo.ModuleWithDependencies [1] [1; 2; 3]
                    ["sensor"; "bus"; "sensor"] [1; 2; 3]) Hnd Happend)).
  - exact (proj1 (proj2 (proj2 (AppendModulesByName_no_duplicates
                    Demo.ModuleWithDependencies [1] [1; 2; 3]
                    ["sensor"; "bus"; "sensor"] [1; 2; 3]) Hnd Happend))).
  - exact (proj2 (proj2 (proj2 (AppendModulesByName_no_duplicates
                    Demo.ModuleWithDependencies [1] [1; 2; 3]
                    ["sensor"; "bus"; "sensor"] [1; 2; 3]) Hnd Happend))).
Defined.

Lemma Demo_hooks_keep_modules : hooks_keep_modules Demo.heap.
Proof.
  intros p module hook config Hp Hhook.
  do 8 (destruct p as [|p];
        [simpl in Hp; try discriminate Hp; injection Hp as <-;
         simpl in Hhook; try discriminate Hhook; by injection Hhook as <-|]).
  discriminate Hp.
Qed.

(** The configuration of a program that asks for the sensor only starts
    with the logger. *)
Lemma NewAppConfig_logger_first_witness :
  hooks_keep_modules Demo.heap ∧
  NewAppConfig Demo.heap Demo.ModuleWithDependencies Demo.path_Base
    "demo" ["-test.v"; "-debug"] ["sensor"] = ([], Ok Demo.sensor_config) ∧
  Modules Demo.sensor_config = [1; 2; 3] ∧
  ((∃ err, @nil event = [EvStderr err]
           ∧ Demo.sensor_config = AppConfig_zero) ∨
   (@nil event = [] ∧
    ∃ requested,
      (Demo.ModuleWithDependencies "logger").2 = None ∧
      Modules Demo.sensor_config
        = (Demo.ModuleWithDependencies "logger").1 ++ requested ∧
      ∀ m, m ∈ requested → m ∉ (Demo.ModuleWithDependencies "logger").1)).
Proof.
  assert (NewAppConfig Demo.heap Demo.ModuleWithDependencies Demo.path_Base
            "demo" ["-test.v"; "-debug"] ["sensor"]
          = ([], Ok Demo.sensor_config)) as Hconfig by (by vm_compute).
  split_and!; [exact Demo_hooks_keep_modules | exact Hconfig
              | by vm_compute |].
  exact (NewAppConfig_logger_first Demo.heap Demo.ModuleWithDependencies
           Demo.path_Base "demo" ["-test.v"; "-debug"] ["sensor"] []
           Demo.sensor_config Demo_hooks_keep_modules Hconfig).
Defined.

(** When the logger is not registered [NewAppConfig] prints the error and
    returns the empty configuration. *)
Example NewAppConfig_without_logger :
  NewAppConfig Demo.heap
    (fun name => ([], Some (ErrExternal ("module not registered: " +:+ name))))
    Demo.path_Base "demo" [] ["sensor"]
  = ([EvStderr (ErrExternal "module not registered: logger")],
     Ok AppConfig_zero).
Proof. by vm_compute. Qed.

(** Under the schedule [Demo.early_done] the background task gets [DONE]
    while the main task has not returned yet. *)
Lemma done_delivered_before_main_returns :
  AppInstance_Run Demo.heap Demo.three_drivers Demo.signalling_main
    [Demo.waiting_background] Demo.early_done
  = ([EvMainSignal;
      EvLog LDebug2 LogMainThreadDone;
      EvLog LDebug2 (LogSendingDone 1 1);
      EvSendDone 0;
      EvMainReturn None;
      EvLog LDebug2 LogWaitingForTasks;
      EvBackgroundReturn 0 (Some (ErrExternal "late"));
      EvLog LError (LogBackgroundError (ErrExternal "late") 1);
      EvLog LDebug2 LogAllTasksFinished;
      EvRunReturn None],
     Finished None) ∧
  done_after_return false
    (AppInstance_Run Demo.heap Demo.three_drivers Demo.signalling_main
       [Demo.waiting_background] Demo.early_done).1 = false.
Proof. by vm_compute. Qed.

(** The same run: the background task returns an error, the main task
    returns nil, and [Run] returns nil. *)
Lemma Run_returns_main_error_witness :
  let run := AppInstance_Run Demo.heap Demo.three_drivers
               Demo.signalling_main [Demo.waiting_background]
               Demo.early_done in
  run = (run.1, Finished None) ∧
  EvBackgroundReturn 0 (Some (ErrExternal "late")) ∈ run.1 ∧
  (∀ e, EvMainReturn e ∈ run.1 → None = e) ∧
  ((run_hooks Demo.heap Demo.three_drivers (modules Demo.three_drivers)).2
     = Ok tt → main_returns run.1 = [None]).
Proof.
  cbv zeta.
  assert (AppInstance_Run Demo.heap Demo.three_drivers Demo.signalling_main
            [Demo.waiting_background] Demo.early_done
          = ((AppInstance_Run Demo.heap Demo.three_drivers
                Demo.signalling_main [Demo.waiting_background]
                Demo.early_done).1, Finished None)) as Hrun
    by (by vm_compute).
  split_and!; [exact Hrun | vm_compute; set_solver | ..];
    apply (Run_returns_main_error Demo.heap _ _ _ _ _ _ Hrun).
Defined.

(** A module whose [Run] hook fails: [Run] returns the error of the hook
    and the main task is not started. *)
Example Run_stubborn_module :
  AppInstance_Run Demo.heap Demo.with_stubborn Demo.returning_main []
    [RunMain 0; RunWait]
  = ([EvRunHook 7 None (Some (ErrExternal "not ready"))],
     Finished (Some (ErrExternal "not ready"))).
Proof. by vm_compute. Qed.

End Samples.

(** * Further properties of the module list *)

Section MoreModuleLists.
Variable ModuleWithDependencies : string -> list ModuleRef * option error.

Lemma appendModules_loop_added (others modules : list ModuleRef) :
  ∃ added, appendModules_loop modules others = modules ++ added ∧
           NoDup added ∧ added `sublist_of` others ∧
           ∀ m, m ∈ added ↔ m ∈ others ∧ m ∉ modules.
Proof.
  revert modules. induction others as [|other rest IH]; intros modules; simpl.
  - exists []. split_and!; [by rewrite app_nil_r | constructor | constructor |].
    intros m. rewrite !elem_of_nil. tauto.
  - destruct (inModules modules other) eqn:Hother.
    + apply inModules_true in Hother.
      destruct (IH modules) as (added & -> & Hnd & Hsub & Hin).
      exists added. split_and!; [done | done | by constructor |].
      intros m. rewrite Hin, elem_of_cons.
      split; [tauto|]. intros [[->|?] ?]; tauto.
    + apply inModules_false in Hother.
      destruct (IH (modules ++ [other])) as (added & -> & Hnd & Hsub & Hin).
      exists (other :: added).
      split_and!; [by rewrite <- app_assoc | | by constructor |].
      * apply NoDup_cons. split; [|done].
        intros [_ Hno]%Hin. apply Hno, elem_of_app. right.
        by apply list_elem_of_singleton.
      * intros m. rewrite !elem_of_cons, Hin, elem_of_app,
          list_elem_of_singleton.
        destruct (decide (m = other)) as [->|Hne]; [tauto|]. tauto.
Qed.

(** X1: [inModules] decides membership by pointer, and after
    [appendModules] a module is in the list exactly when it was in one of
    the two lists. *)
Theorem inModules_appendModules (modules others : list ModuleRef)
    (other : ModuleRef) :
  inModules modules other = bool_decide (other ∈ modules) ∧
  inModules (appendModules modules others) other
    = inModules modules other || inModules others other.
Proof.
  assert (∀ l, inModules l other = bool_decide (other ∈ l)) as Hdec.
  { intros l. destruct (inModules l other) eqn:H.
    - apply inModules_true in H. by rewrite bool_decide_eq_true_2.
    - apply inModules_false in H. by rewrite bool_decide_eq_false_2. }
  split; [apply Hdec|]. rewrite !Hdec.
  rewrite <- bool_decide_or. apply bool_decide_ext, appendModules_elem_of.
Qed.

(** X2: [appendModules] keeps the list it is given as a prefix and appends,
    in their order in [others] and once each, exactly the modules of
    [others] that the list does not hold. *)
Theorem appendModules_appends (modules others : list ModuleRef) :
  ∃ added, appendModules modules others = modules ++ added ∧
           NoDup added ∧ added `sublist_of` others ∧
           ∀ m, m ∈ added ↔ m ∈ others ∧ m ∉ modules.
Proof.
  unfold appendModules. destruct (decide (length others = 0)) as [Hlen|_].
  - destruct others; [|done]. exists [].
    split_and!; [by rewrite app_nil_r | constructor | constructor |].
    intros m. rewrite !elem_of_nil. tauto.
  - apply appendModules_loop_added.
Qed.

Lemma appendModules_absorbs (modules others : list ModuleRef) :
  (∀ m, m ∈ others → m ∈ modules) → appendModules modules others = modules.
Proof.
  intros Hsub.
  destruct (appendModules_loop_added others modules)
    as (added & Heq & _ & _ & Hin).
  assert (added = []) as ->.
  { destruct added as [|m added]; [done|].
    destruct (proj1 (Hin m)) as [Hm Hno]; [apply elem_of_cons; by left|].
    destruct Hno. by apply Hsub. }
  unfold appendModules. destruct (decide _); [done|].
  by rewrite Heq, app_nil_r.
Qed.

(** X3: appending the same modules a second time changes nothing, and so
    does appending a list to itself or appending no module at all. *)
Theorem appendModules_idempotent (modules others : list ModuleRef) :
  appendModules (appendModules modules others) others
    = appendModules modules others ∧
  appendModules modules modules = modules ∧
  appendModules modules [] = modules.
Proof.
  split_and!; [| by apply appendModules_absorbs | done].
  apply appendModules_absorbs. intros m Hm.
  apply appendModules_elem_of. by right.
Qed.

(** X4: [AppendModulesByName] succeeds when every name resolves, and
    otherwise returns the nil list together with the error of the first
    name that does not resolve, whatever comes after that name. *)
Theorem AppendModulesByName_first_error (modules : list ModuleRef)
    (good rest : list string) (bad : string) (err : error) :
  (∀ name, name ∈ good → (ModuleWithDependencies name).2 = None) →
  (ModuleWithDependencies bad).2 = Some err →
  (AppendModulesByName ModuleWithDependencies modules good).2 = None ∧
  AppendModulesByName ModuleWithDependencies modules (good ++ bad :: rest)
    = ([], Some err).
Proof.
  revert modules. induction good as [|name good IH]; intros modules Hgood Hbad.
  - simpl. destruct (ModuleWithDependencies bad) as [deps e].
    simpl in Hbad. by subst e.
  - simpl. pose proof (Hgood name) as Hname.
    destruct (ModuleWithDependencies name) as [deps [e|]].
    + discriminate Hname. apply elem_of_cons. by left.
    + apply IH; [|done]. intros n Hn. apply Hgood, elem_of_cons. by right.
Qed.

(** X5: resolving a list of names in one call of [AppendModulesByName] is
    resolving a first part of it and then, on the list that gives, the
    rest; an error in the first part is the error of the whole. *)
Theorem AppendModulesByName_app (modules : list ModuleRef)
    (names1 names2 : list string) :
  AppendModulesByName ModuleWithDependencies modules (names1 ++ names2) =
    match AppendModulesByName ModuleWithDependencies modules names1 with
    | (modules1, None) =>
        AppendModulesByName ModuleWithDependencies modules1 names2
    | (_, Some err) => ([], Some err)
    end.
Proof.
  revert modules. induction names1 as [|name names1 IH]; intros modules; simpl.
  - done.
  - destruct (ModuleWithDependencies name) as [deps [e|]]; [done|]. apply IH.
Qed.

End MoreModuleLists.

(** X6: [getTestlessArguments] keeps, in their order, exactly the
    arguments that do not start with "-test."; applying it again changes
    nothing. *)
Theorem getTestlessArguments_filters (input : list string) :
  getTestlessArguments input `sublist_of` input ∧
  (∀ arg, arg ∈ getTestlessArguments input ↔
          arg ∈ input ∧ String.prefix "-test." arg = false) ∧
  getTestlessArguments (getTestlessArguments input)
    = getTestlessArguments input.
Proof.
  induction input as [|arg rest (Hsub & Hin & Hidem)]; simpl.
  - split_and!; [constructor | | done].
    intros arg. rewrite !elem_of_nil. tauto.
  - destruct (String.prefix "-test." arg) eqn:Harg.
    + split_and!; [by constructor | | done].
      intros a. rewrite Hin, elem_of_cons.
      split; [tauto|]. intros [[->|?] ?]; [congruence | tauto].
    + split_and!; [by constructor | |].
      * intros a. rewrite !elem_of_cons, Hin.
        split; [intros [->|?]; tauto | tauto].
      * simpl. by rewrite Harg, Hidem.
Qed.

(** * Further properties of the instance *)

Section MoreApp.
Context `{FO : FlagsOps}.
Variable heap : ModuleRef -> option Module.
Variable module_name_map : gmap string ModuleType.

(** ** Registration and lookup *)

Lemma field_set_field (i j : Interface) (v : option Driver)
    (this : AppInstance) :
  field j (set_field i v this) = if decide (i = j) then v else field j this.
Proof. by destruct j. Qed.

Lemma interface_singleton (t : ModuleType) (i : Interface) :
  interface_of_type t = Some i → singleton_type t = true.
Proof. by destruct t. Qed.

(** X7: a driver offered under a name that is taken is refused with the
    duplicate-name error, whose text quotes the name, and the instance is
    left exactly as it was: every lookup gives what it gave before. *)
Theorem setModuleInstance_duplicate_name (p : ModuleRef) (module : Module)
    (driver : Driver) (this : AppInstance) :
  is_Some (byname this !! Name module) →
  setModuleInstance p module driver this
    = (this, Some (ErrDuplicateName (Name module))) ∧
  error_text (ErrDuplicateName (Name module))
    = Some ("setModuleInstance: Duplicate module with name '"
            +:+ Name module +:+ "'") ∧
  ∀ name, ModuleInstance module_name_map name
            (setModuleInstance p module driver this).1
          = ModuleInstance module_name_map name this.
Proof.
  intros [occupant Hname].
  assert (setModuleInstance p module driver this
          = (this, Some (ErrDuplicateName (Name module)))) as Heq.
  { rewrite setModuleInstance_cases. cbv zeta. by rewrite Hname. }
  by rewrite Heq.
Qed.

(** X8: after a registration that succeeds the driver is found: under the
    name of its module in the by-name map, under the type of its module in
    the by-type map when the type is singleton-constrained, in the
    convenience field of that type (the driver then implements the
    interface of the field), at the end of the creation-order list, and
    through [ModuleInstance] by the name of the module when that is no
    reserved word and by every reserved word that stands for its
    singleton-constrained type. *)
Theorem setModuleInstance_registers (p : ModuleRef) (module : Module)
    (driver : Driver) (this : AppInstance) :
  (setModuleInstance p module driver this).2 = None →
  let this' := (setModuleInstance p module driver this).1 in
  byname this' !! Name module = Some driver ∧
  last (byorder this') = Some driver ∧
  (singleton_type (Type_ module) = true →
   bytype this' !! Type_ module = Some driver) ∧
  (∀ i, interface_of_type (Type_ module) = Some i →
        field i this' = Some driver ∧ implements driver i = true) ∧
  (module_name_map !! Name module = None →
   ModuleInstance module_name_map (Name module) this' = Some driver) ∧
  (∀ word, module_name_map !! word = Some (Type_ module) →
           singleton_type (Type_ module) = true →
           ModuleInstance module_name_map word this' = Some driver).
Proof.
  intros Hok. cbv zeta.
  destruct (setModuleInstance_ok p module driver this Hok)
    as (Hbo & _ & Htype).
  assert (byname (setModuleInstance p module driver this).1 !! Name module
          = Some driver ∧
          ∀ i, interface_of_type (Type_ module) = Some i →
               field i (setModuleInstance p module driver this).1
                 = Some driver ∧ implements driver i = true)
    as [Hname Hfield].
  { revert Hok. rewrite setModuleInstance_cases. cbv zeta.
    destruct (byname this !! Name module); [done|].
    assert (∀ that,
      byname that !! Name module = Some driver →
      (setModuleInstance_tail p module driver that).2 = None →
      byname (setModuleInstance_tail p module driver that).1 !! Name module
        = Some driver ∧
      ∀ i, interface_of_type (Type_ module) = Some i →
           field i (setModuleInstance_tail p module driver that).1
             = Some driver ∧ implements driver i = true) as Htail.
    { intros that Hthat. unfold setModuleInstance_tail.
      destruct (interface_of_type (Type_ module)) as [i|]; [|done].
      destruct (implements driver i) eqn:Himpl; [|done]. simpl.
      intros _. split; [done|]. intros j [= <-].
      by rewrite field_set_field, decide_True. }
    destruct (singleton_type (Type_ module)).
    - destruct (bytype this !! Type_ module); [done|].
      apply Htail. simpl. apply lookup_insert_eq.
    - apply Htail. simpl. apply lookup_insert_eq. }
  split_and!; [done | by rewrite Hbo, last_snoc | apply Htype | done | |].
  - intros Hword. unfold ModuleInstance. by rewrite Hword.
  - intros word Hword Hsingle. unfold ModuleInstance. rewrite Hword.
    by apply Htype.
Qed.

(** X9: a driver that does not implement the interface of its module's
    type is refused with the cannot-cast error only after it has been
    registered: it is in the by-name map, in the by-type map and at the end
    of the creation-order list, and the convenience field of the type is
    nil. *)
Theorem setModuleInstance_cannot_cast (p : ModuleRef) (module : Module)
    (driver : Driver) (this : AppInstance) (i : Interface) :
  byname this !! Name module = None →
  bytype this !! Type_ module = None →
  interface_of_type (Type_ module) = Some i →
  implements driver i = false →
  let this' := (setModuleInstance p module driver this).1 in
  (setModuleInstance p module driver this).2 = Some (ErrCannotCast p i) ∧
  byname this' = <[Name module := driver]> (byname this) ∧
  bytype this' = <[Type_ module := driver]> (bytype this) ∧
  byorder this' = byorder this ++ [driver] ∧
  field i this' = None.
Proof.
  intros Hname Htype Hi Himpl. cbv zeta.
  rewrite setModuleInstance_cases. cbv zeta.
  rewrite Hname, (interface_singleton _ _ Hi), Htype.
  unfold setModuleInstance_tail. rewrite Hi, Himpl. simpl.
  split_and!; [done..|]. by rewrite field_set_field, decide_True.
Qed.

(** X10: modules of type none, other, service or client never compete for
    their type: with a free name the registration succeeds whatever is
    registered already, and it touches neither the by-type map nor a
    convenience field; the driver is reachable by its name. *)
Theorem setModuleInstance_unconstrained (p : ModuleRef) (module : Module)
    (driver : Driver) (this : AppInstance) :
  byname this !! Name module = None →
  singleton_type (Type_ module) = false →
  let this' := (setModuleInstance p module driver this).1 in
  (setModuleInstance p module driver this).2 = None ∧
  byname this' = <[Name module := driver]> (byname this) ∧
  bytype this' = bytype this ∧
  byorder this' = byorder this ++ [driver] ∧
  ∀ i, field i this' = field i this.
Proof.
  intros Hname Hsingle. cbv zeta.
  rewrite setModuleInstance_cases. cbv zeta. rewrite Hname, Hsingle.
  unfold setModuleInstance_tail.
  destruct (interface_of_type (Type_ module)) as [i|] eqn:Hi.
  { apply interface_singleton in Hi. congruence. }
  simpl. split_and!; [done..|]. by intros [].
Qed.

End MoreApp.

(** * Further properties of the instance builder *)

Section MoreBuild.
Context `{FO : FlagsOps}.
Variable heap : ModuleRef -> option Module.
Variable module_name_map : gmap string ModuleType.

Lemma constructed_app (evs1 evs2 : list event) :
  constructed (evs1 ++ evs2) = constructed evs1 ++ constructed evs2.
Proof.
  induction evs1 as [|ev evs1 IH]; [done|].
  destruct ev; simpl; by rewrite ?IH.
Qed.

Lemma log_unconstructed (b : bool) (lvl : LogLevel) (line : LogLine) :
  constructed (if b then [EvLog lvl line] else []) = [].
Proof. by destruct b. Qed.

Lemma setModuleInstance_settings (p : ModuleRef) (module : Module)
    (driver : Driver) (this : AppInstance) :
  settings (setModuleInstance p module driver this).1 = settings this.
Proof.
  rewrite setModuleInstance_cases. cbv zeta.
  assert (∀ that, settings (setModuleInstance_tail p module driver that).1
                  = settings that) as Htail.
  { intros that. unfold setModuleInstance_tail.
    destruct (interface_of_type (Type_ module)) as [i|]; [|done].
    by destruct (implements driver i). }
  destruct (byname this !! Name module); [done|].
  destruct (singleton_type (Type_ module));
    [destruct (bytype this !! Type_ module); [done|]|];
    by rewrite Htail.
Qed.

Lemma filter_constructible_cons (q : ModuleRef) (rest : list ModuleRef) :
  filter (constructible heap) (q :: rest) =
    if constructible heap q then q :: filter (constructible heap) rest
    else filter (constructible heap) rest.
Proof.
  destruct (constructible heap q) eqn:Hq.
  - rewrite filter_cons_True; [done | by apply Is_true_true].
  - rewrite filter_cons_False; [done | by apply Is_true_false].
Qed.

(** The shape of the trace of a build, whatever its outcome. *)
Lemma build_shape (all rest : list ModuleRef) (once : bool)
    (this : AppInstance) (evs : list event) (r : result AppInstance) :
  build heap all rest once this = (evs, r) →
  constructed evs `prefix_of` filter (constructible heap) rest ∧
  (closed evs = [] ∨
   ∃ d, closed evs = [d] ∧ last (built evs) = Some d ∧ ∀ t, r ≠ Ok t) ∧
  (∀ this', r = Ok this' →
     constructed evs = filter (constructible heap) rest ∧
     length (built evs) = length (constructed evs) ∧
     settings this' = settings this).
Proof.
  revert once this evs. induction rest as [|q rest IH]; intros once this evs.
  - simpl. intros Hb.
    assert (constructed evs = [] ∧ closed evs = [] ∧ built evs = [] ∧
            ∀ this', r = Ok this' → this' = this) as (-> & -> & -> & Hsame).
    { destruct once; [|destruct (Logger this)]; injection Hb as <- <-;
        split_and!; try done; by intros ? [= <-]. }
    split_and!; [done | by left |].
    by intros this' ->%Hsame.
  - rewrite build_cons. cbv zeta. intros (evs1 & Hb & ->)%emit_inv.
    rewrite constructed_app, closed_app, built_app, log_unconstructed.
    destruct (log_silent (bool_decide (is_Some (Logger this)) && negb once)
                LDebug (LogOpenModules all)) as [-> ->].
    simpl. rewrite filter_constructible_cons.
    destruct (heap q) as [module|] eqn:Hq.
    2:{ injection Hb as <- <-.
        split_and!; [apply prefix_nil | by left | done]. }
    destruct (New module) as [new|] eqn:Hnew.
    2:{ replace (constructible heap q) with false
          by (unfold constructible; by rewrite Hq, Hnew).
        by eapply IH. }
    replace (constructible heap q) with true
      by (unfold constructible; by rewrite Hq, Hnew).
    apply emit_inv in Hb as (evs2 & Hb & ->).
    rewrite constructed_app, closed_app, built_app, log_unconstructed.
    destruct (log_silent (bool_decide (is_Some (Logger this)))
                LDebug2 (LogModuleNew q)) as [-> ->].
    simpl. apply emit_inv in Hb as (evs3 & Hb & ->).
    destruct (new this) as [driver err]. simpl in Hb |- *.
    destruct err as [e|].
    { injection Hb as <- <-. destruct driver; simpl;
        (split_and!; [apply prefix_cons, prefix_nil | by left | done]). }
    destruct driver as [d|].
    2:{ injection Hb as <- <-. simpl.
        split_and!; [apply prefix_cons, prefix_nil | by left | done]. }
    pose proof (setModuleInstance_settings q module d this) as Hsettings.
    destruct (setModuleInstance q module d this) as [this1 [e|]];
      simpl in Hb, Hsettings.
    + apply emit_inv in Hb as (evs4 & Hb & ->). simpl.
      assert (closed evs4 = [] ∧ built evs4 = [] ∧ constructed evs4 = [] ∧
              ∀ t, r ≠ Ok t) as (-> & -> & -> & Hfail).
      { destruct (drv_close d); [destruct (Logger this1)|];
          injection Hb as <- <-; by split_and!. }
      split_and!; [apply prefix_cons, prefix_nil | right; by exists d |].
      intros this' ->. by destruct (Hfail this').
    + destruct (IH _ _ _ Hb) as (Hprefix & Hclosed & Hok). simpl.
      split_and!; [by apply prefix_cons | |].
      * destruct Hclosed as [->|(d' & -> & Hlast & Hfail)]; [by left|].
        right. exists d'. split_and!; [done | | done].
        by rewrite last_cons, Hlast.
      * intros this' Hr. destruct (Hok this' Hr) as (-> & -> & ->).
        by rewrite Hsettings.
Qed.

Lemma NewAppInstance_build_or_early (config : AppConfig) :
  (NewAppInstance heap config).1 = [] ∧
  (∀ t, (NewAppInstance heap config).2 ≠ Ok t) ∨
  ∃ flags0 flags,
    AppFlags config = Some flags0 ∧
    flags = (if Parsed flags0 then flags0
             else (Parse flags0 (AppArgs config)).1) ∧
    NewAppInstance heap config
      = build heap (Modules config) (Modules config) false
          (new_instance config flags).
Proof.
  unfold NewAppInstance. destruct (AppFlags config) as [flags0|];
    [|by left].
  destruct (Parsed flags0) eqn:Hparsed.
  - right. exists flags0, flags0. by rewrite Hparsed.
  - destruct (Parse flags0 (AppArgs config)) as [flags [err|]] eqn:Hparse;
      [by left|].
    right. exists flags0, flags. by rewrite Hparsed, Hparse.
Qed.

(** X11: the instance that [NewAppInstance] returns carries the flag set
    of the configuration (parsed by then) and the module list of the
    configuration; [Debug] and [Verbose] report the flags "debug" and
    "verbose" when the flag set defines them and the settings of the
    configuration when it does not; [Service] reports the service name of
    the configuration, or the name of the flag set when that name is
    empty.  The loop that constructs the modules changes none of these. *)
Theorem NewAppInstance_settings (config : AppConfig) (evs : list event)
    (this : AppInstance) :
  NewAppInstance heap config = (evs, Ok this) →
  ∃ flags0 flags,
    AppFlags config = Some flags0 ∧
    flags = (if Parsed flags0 then flags0
             else (Parse flags0 (AppArgs config)).1) ∧
    this_AppFlags this = Some flags ∧
    modules this = Modules config ∧
    AppInstance_Debug this
      = (if (GetBool flags "debug").2 then (GetBool flags "debug").1
         else Debug config) ∧
    AppInstance_Verbose this
      = (if (GetBool flags "verbose").2 then (GetBool flags "verbose").1
         else Verbose config) ∧
    AppInstance_Service this
      = (if decide (Service config = "") then FlagsName flags
         else Service config).
Proof.
  intros Hb.
  destruct (NewAppInstance_build_or_early config)
    as [[_ Hfail]|(flags0 & flags & Hflags & Hparsed & Hbuild)].
  { rewrite Hb in Hfail. by destruct (Hfail this). }
  rewrite Hbuild in Hb. apply build_shape in Hb as (_ & _ & Hok).
  destruct (Hok this eq_refl) as (_ & _ & Hsettings).
  injection Hsettings as HAF Hdebug Hverbose Hservice Hmodules.
  exists flags0, flags. unfold AppInstance_Debug, AppInstance_Verbose,
    AppInstance_Service.
  rewrite HAF, Hdebug, Hverbose, Hservice, Hmodules. simpl.
  split_and!; try done.
  - by destruct (GetBool flags "debug") as [v []].
  - by destruct (GetBool flags "verbose") as [v []].
Qed.

(** X12: [NewAppInstance] calls the [New] hooks in the order of the module
    list, skipping the modules that have none: whatever the outcome, the
    modules whose hook was called are a prefix of the modules of the list
    that have a hook, and when an instance is returned they are all of
    them, each hook has returned a driver, and the creation-order list of
    the instance holds these drivers in that order. *)
Theorem NewAppInstance_construction_order (config : AppConfig) :
  constructed (NewAppInstance heap config).1
    `prefix_of` filter (constructible heap) (Modules config) ∧
  ∀ this, (NewAppInstance heap config).2 = Ok this →
          constructed (NewAppInstance heap config).1
            = filter (constructible heap) (Modules config) ∧
          byorder this = built (NewAppInstance heap config).1 ∧
          length (byorder this)
            = length (filter (constructible heap) (Modules config)).
Proof.
  destruct (NewAppInstance_build_or_early config)
    as [[Hnil Hfail]|(flags0 & flags & _ & _ & Hbuild)].
  { rewrite Hnil. split; [apply prefix_nil|].
    intros this Hr. by destruct (Hfail this). }
  destruct (NewAppInstance heap config) as [evs r] eqn:Hrun. simpl.
  symmetry in Hbuild. pose proof Hbuild as Hb.
  apply build_shape in Hb as (Hprefix & _ & Hok).
  split; [done|]. intros this ->.
  destruct (Hok this eq_refl) as (Hall & Hlen & _).
  apply NewAppInstance_Ok in Hrun as (_ & Hbo & _).
  by rewrite Hbo, Hlen, Hall.
Qed.

(** X13: a build closes at most one driver, and when it closes one it is
    the driver built last and the build does not return an instance: the
    builder never closes a driver of an earlier module. *)
Theorem NewAppInstance_closes_last_built (config : AppConfig) :
  closed (NewAppInstance heap config).1 = [] ∨
  ∃ d, closed (NewAppInstance heap config).1 = [d] ∧
       last (built (NewAppInstance heap config).1) = Some d ∧
       ∀ this, (NewAppInstance heap config).2 ≠ Ok this.
Proof.
  destruct (NewAppInstance_build_or_early config)
    as [[Hnil Hfail]|(flags0 & flags & _ & _ & Hbuild)].
  { left. by rewrite Hnil. }
  destruct (NewAppInstance heap config) as [evs r] eqn:Hrun. simpl.
  symmetry in Hbuild. by apply build_shape in Hbuild as (_ & Hclosed & _).
Qed.

(** X14: a configuration none of whose modules has a [New] hook (the
    empty module list among them) makes [NewAppInstance] panic once the
    flags are parsed: it reports the opening through the logger, and there
    is none. *)
Theorem NewAppInstance_without_New_panics (config : AppConfig)
    (flags : Flags) :
  AppFlags config = Some flags →
  Parsed flags = true ∨ (Parse flags (AppArgs config)).2 = None →
  (∀ p, p ∈ Modules config →
        ∃ module, heap p = Some module ∧ New module = None) →
  NewAppInstance heap config = ([], Panic).
Proof.
  intros Hflags Hparse Hmodules. unfold NewAppInstance. rewrite Hflags.
  assert (∃ flags', (if Parsed flags then (flags, None)
                     else Parse flags (AppArgs config)) = (flags', None))
    as [flags' ->].
  { destruct Hparse as [->|Hparse]; [by exists flags|].
    destruct (Parsed flags); [by exists flags|].
    destruct (Parse flags (AppArgs config)) as [flags' e].
    simpl in Hparse. subst e. by exists flags'. }
  assert (∀ rest this, Logger this = None →
            (∀ p, p ∈ rest →
                  ∃ module, heap p = Some module ∧ New module = None) →
            build heap (Modules config) rest false this = ([], Panic))
    as Hloop.
  { induction rest as [|q rest IH]; intros this HL Hrest.
    - simpl. by rewrite HL.
    - rewrite build_cons. cbv zeta. rewrite HL. simpl.
      destruct (Hrest q) as (module & -> & ->); [apply elem_of_cons; by left|].
      unfold emit. rewrite IH; [done | done |].
      intros p Hp. apply Hrest, elem_of_cons. by right. }
  by apply Hloop.
Qed.

End MoreBuild.

(** * Further properties of teardown *)

Section MoreClose.
Context `{FO : FlagsOps}.
Variable module_name_map : gmap string ModuleType.

Lemma close_loop_errors (drivers : list Driver) (i : nat) :
  i ≤ length drivers →
  close_errors (close_loop drivers i).1
    = omap drv_close (reverse (take i drivers)).
Proof.
  induction i as [|j IH]; intros Hi.
  - by rewrite take_0.
  - simpl close_loop.
    destruct (lookup_lt_is_Some_2 drivers j) as [driver Hj]; [lia|].
    rewrite Hj, (take_S_r _ _ _ Hj), reverse_snoc. unfold emit. simpl.
    specialize (IH ltac:(lia)). unfold omap in IH.
    destruct (drv_close driver); simpl; by rewrite IH.
Qed.

(** X15: [Close] logs the error of every driver whose close operation
    fails, in the order the drivers are closed, and logs no other close
    error; none of these errors is returned. *)
Theorem Close_logs_close_errors (this : AppInstance) :
  is_Some (Logger this) →
  close_errors (AppInstance_Close this).1
    = omap drv_close (reverse (byorder this)) ∧
  ∃ this', (AppInstance_Close this).2 = Ok (this', None).
Proof.
  intros [logger HL]. unfold AppInstance_Close. rewrite HL.
  pose proof (close_loop_errors (byorder this) (length (byorder this)))
    as Herrs.
  destruct (close_loop_closed (byorder this) (length (byorder this)))
    as (evs & Hloop & _); [done|].
  rewrite Hloop in Herrs |- *. simpl in *.
  rewrite take_ge in Herrs by done. split; [by apply Herrs | by eexists].
Qed.

(** X16: after [Close] the instance holds no driver any more: every
    lookup through [ModuleInstance] gives nil, the convenience fields are
    nil and the creation-order list is empty, while the flag set, the
    settings and the module list stay; since the logger is gone too, a
    second [Close] panics. *)
Theorem Close_releases_everything (this : AppInstance) :
  is_Some (Logger this) →
  ∃ evs this',
    AppInstance_Close this = (evs, Ok (this', None)) ∧
    (∀ name, ModuleInstance module_name_map name this' = None) ∧
    (∀ i, field i this' = None) ∧
    byorder this' = [] ∧
    settings this' = settings this ∧
    AppInstance_Close this' = ([], Panic).
Proof.
  intros (evs & Hclose & _)%AppInstance_Close_closed.
  exists evs, (cleared this). split_and!; try done.
  - intros name. unfold ModuleInstance. simpl.
    by destruct (module_name_map !! name).
  - by intros [].
Qed.

End MoreClose.

(** * Further properties of the runner *)

Section MoreRun.
Context `{FO : FlagsOps}.
Variable heap : ModuleRef -> option Module.

(** X17: when the [Run] hook of a module fails, [Run] returns the error of
    that hook under every schedule, whatever the tasks are; the failing
    call is the last thing that happened, it was given the driver
    registered under the name of the module, and no task was started. *)
Theorem Run_hook_error (this : AppInstance) (main_task : MainTask)
    (background_tasks : list BackgroundTask) (schedule : list choice)
    (e : error) :
  (run_hooks heap this (modules this)).2 = Err e →
  AppInstance_Run heap this main_task background_tasks schedule
    = ((run_hooks heap this (modules this)).1, Finished (Some e)) ∧
  existsb task_event (run_hooks heap this (modules this)).1 = false ∧
  ∃ p module run,
    heap p = Some module ∧ Run module = Some run ∧
    run this (byname this !! Name module) = Some e ∧
    last (run_hooks heap this (modules this)).1
      = Some (EvRunHook p (byname this !! Name module) (Some e)).
Proof.
  intros Hhooks. split.
  { unfold AppInstance_Run.
    destruct (run_hooks heap this (modules this)) as [hook_evs r].
    simpl in Hhooks. by subst r. }
  revert Hhooks. generalize (modules this) as ms.
  induction ms as [|q rest IH]; simpl; [done|].
  destruct (heap q) as [module|] eqn:Hq; [|done].
  destruct (Run module) as [run|] eqn:Hrun; [|done].
  unfold emit.
  destruct (run this (byname this !! Name module)) as [e'|] eqn:Hcall; simpl.
  - intros [= ->]. split; [done|]. by exists q, module, run.
  - intros Hrest. destruct (IH Hrest) as (Hsilent & p & m & r & ? & ? & ? & Hl).
    split; [done|]. exists p, m, r. split_and!; try done.
    destruct (run_hooks heap this rest).1; [done|]. by rewrite last_cons, Hl.
Qed.

Section Steps.
Variable this : AppInstance.
Variable main_task : Task.
Variable background_tasks : list Task.

Lemma step_spec_of (c : choice) (st st' : run_state) (evs : list event) :
  step this main_task background_tasks c st = Some (evs, st') →
  rs_crashed st = false ∧ rs_result st = None ∧ step_spec this main_task background_tasks c st evs st'.
Proof.
  unfold step. destruct (rs_crashed st) eqn:Hcrashed; [done|].
  destruct (rs_result st) eqn:Hresult; [done|].
  intros Hstep. split_and!; [done..|].
  destruct c as [k|i k| |].
  - unfold step_main in Hstep.
    destruct (rs_main st) as [pc|e] eqn:Hmain; [|done].
    destruct (task_moves main_task pc !! k) as [[next|next|err]|] eqn:Hmove;
      [| | |done].
    + injection Hstep as <- <-. rewrite Hcrashed, Hresult.
      by eapply spec_main_tau.
    + destruct (rs_coordinator st) eqn:Hco; try done.
      injection Hstep as <- <-. rewrite Hcrashed, Hresult.
      by eapply spec_main_signal.
    + injection Hstep as <- <-. rewrite Hcrashed, Hresult.
      by eapply spec_main_return.
  - unfold step_background in Hstep.
    destruct (background_tasks !! i) as [t|] eqn:Ht; [|done].
    destruct (rs_background st !! i) as [[pc|e]|] eqn:Hbg; [|done..].
    destruct (task_moves t pc !! k) as [[next|next|err]|] eqn:Hmove;
      [| | |done].
    + injection Hstep as <- <-. rewrite Hcrashed, Hresult.
      by eapply spec_background_tau.
    + destruct (rs_coordinator st) as [|j|j|] eqn:Hco; try done.
      destruct (decide (j = i)) as [->|]; [|done].
      injection Hstep as <- <-. rewrite Hcrashed, Hresult.
      by eapply spec_background_done.
    + injection Hstep as <- <-. rewrite Hcrashed, Hresult.
      by eapply spec_background_return.
  - unfold step_coordinator in Hstep.
    destruct (rs_coordinator st) as [|i|i|] eqn:Hco; try done.
    destruct (decide (i < length background_tasks)).
    + destruct (has_logger this) eqn:Hlogger; injection Hstep as <- <-;
        rewrite ?Hcrashed, Hresult.
      * by apply spec_coordinator_send.
      * by apply spec_coordinator_panic.
    + injection Hstep as <- <-. rewrite Hcrashed, Hresult.
      by eapply spec_coordinator_exit.
  - unfold step_wait in Hstep.
    destruct (rs_main st) as [pc|err] eqn:Hmain; [done|].
    destruct (forallb is_returned (rs_background st)) eqn:Hall; [|done].
    injection Hstep as <- <-. rewrite Hcrashed.
    by apply spec_wait.
Qed.

(** Induction along a schedule. *)
Lemma exec_steps (P : run_state → list event → run_state → Prop) :
  (∀ st, P st [] st) →
  (∀ c st evs1 st1 evs2 st2,
     rs_crashed st = false → rs_result st = None →
     step_spec this main_task background_tasks c st evs1 st1 → P st1 evs2 st2 → P st (evs1 ++ evs2) st2) →
  ∀ schedule st evs st',
    exec this main_task background_tasks schedule st = Some (evs, st') →
    P st evs st'.
Proof.
  intros Hnil Hcons. induction schedule as [|c rest IH]; intros st evs st';
    simpl.
  - intros [= <- <-]. apply Hnil.
  - destruct (step _ _ _ c st) as [[evs1 st1]|] eqn:Hstep; [|done].
    destruct (exec _ _ _ rest st1) as [[evs2 st2]|] eqn:Hrest; [|done].
    intros [= <- <-].
    apply step_spec_of in Hstep as (? & ? & ?). by eapply Hcons, IH.
Qed.

Lemma done_indices_app (evs1 evs2 : list event) :
  done_indices (evs1 ++ evs2) = done_indices evs1 ++ done_indices evs2.
Proof.
  induction evs1 as [|ev evs1 IH]; [done|].
  destruct ev; simpl; by rewrite ?IH.
Qed.

Ltac step_cases H :=
  destruct H; simpl in *; unfold log_if_logger in *;
  repeat match goal with
         | E : rs_coordinator _ = _ |- _ => rewrite E in *; clear E
         end.

(** The coordinator serves the background tasks in the order of their
    indices. *)
Lemma exec_done_order (schedule : list choice) (st st' : run_state)
    (evs : list event) :
  exec this main_task background_tasks schedule st = Some (evs, st') →
  coordinator_in_range (length background_tasks) (rs_coordinator st) →
  ∃ k, done_indices evs
         = seq (coordinator_index (length background_tasks)
                  (rs_coordinator st)) k ∧
       coordinator_index (length background_tasks) (rs_coordinator st')
         = coordinator_index (length background_tasks) (rs_coordinator st)
           + k ∧
       coordinator_in_range (length background_tasks) (rs_coordinator st').
Proof.
  revert schedule st evs st'.
  apply (exec_steps (λ st evs st',
    coordinator_in_range (length background_tasks) (rs_coordinator st) →
    ∃ k, done_indices evs
           = seq (coordinator_index (length background_tasks)
                    (rs_coordinator st)) k ∧
         coordinator_index (length background_tasks) (rs_coordinator st')
           = coordinator_index (length background_tasks) (rs_coordinator st)
             + k ∧
         coordinator_in_range (length background_tasks)
           (rs_coordinator st'))).
  - intros st Hok. exists 0. by rewrite Nat.add_0_r.
  - intros c st evs1 st1 evs2 st2 _ _ Hspec IH Hok.
    rewrite done_indices_app.
    step_cases Hspec.
    + by apply IH.
    + destruct (IH ltac:(simpl; lia)) as (len & -> & -> & ?). exists len.
      by destruct (has_logger this).
    + destruct (IH Hok) as (len & -> & -> & ?). exists len.
      by destruct (decide _), (has_logger this).
    + by apply IH.
    + destruct (IH ltac:(simpl in *; lia)) as (len & -> & -> & ?).
      exists (S len). split_and!; [done | simpl; lia | done].
    + destruct (IH Hok) as (len & -> & -> & ?). exists len.
      by destruct err, (has_logger this).
    + apply IH. simpl in *. lia.
    + by apply IH.
    + assert (i = length background_tasks) as -> by (simpl in *; lia).
      by apply IH.
    + destruct (IH Hok) as (len & -> & -> & ?). exists len.
      by destruct (has_logger this).
Qed.

(** What it takes for [Run] to return: all background tasks have returned,
    each return is in the trace, and the return of [Run] is its end. *)
Lemma exec_waits_for_all (schedule : list choice) (st st' : run_state)
    (evs : list event) :
  exec this main_task background_tasks schedule st = Some (evs, st') →
  length (rs_background st') = length (rs_background st) ∧
  (∀ i e, rs_background st' !! i = Some (Returned e) →
          rs_background st !! i = Some (Returned e) ∨
          EvBackgroundReturn i e ∈ evs) ∧
  (∀ r, rs_result st = None → rs_result st' = Some r →
        forallb is_returned (rs_background st') = true ∧
        last evs = Some (EvRunReturn r)) ∧
  (is_Some (rs_result st) → evs = [] ∧ st' = st).
Proof.
  revert schedule st evs st'.
  apply (exec_steps (λ st evs st',
    length (rs_background st') = length (rs_background st) ∧
    (∀ i e, rs_background st' !! i = Some (Returned e) →
            rs_background st !! i = Some (Returned e) ∨
            EvBackgroundReturn i e ∈ evs) ∧
    (∀ r, rs_result st = None → rs_result st' = Some r →
          forallb is_returned (rs_background st') = true ∧
          last evs = Some (EvRunReturn r)) ∧
    (is_Some (rs_result st) → evs = [] ∧ st' = st))).
  - intros st. split_and!; [done | by left | congruence | done].
  - intros c st evs1 st1 evs2 st2 _ Hnone Hspec (Hlen & Hret & Hres & Hafter).
    assert (∀ r, rs_result st1 = None → rs_result st2 = Some r →
                 forallb is_returned (rs_background st2) = true ∧
                 last (evs1 ++ evs2) = Some (EvRunReturn r)) as Hres'.
    { intros r H1 H2. destruct (Hres r H1 H2) as [? Hlast].
      split; [done|]. by rewrite last_app, Hlast. }
    assert (∀ i e, rs_background st2 !! i = Some (Returned e) →
                   rs_background st1 !! i = Some (Returned e) ∨
                   EvBackgroundReturn i e ∈ evs1 ++ evs2) as Hret'.
    { intros i e [?|?]%Hret; [by left | right; apply elem_of_app; by right]. }
    split_and!; [| | |rewrite Hnone; by intros [? ?]].
    + rewrite Hlen. destruct Hspec; simpl; by rewrite ?length_insert.
    + intros j e Hj. destruct (Hret' j e Hj) as [Hst1|?]; [|by right].
      destruct Hspec; simpl in *; try (by left).
      * destruct (decide (i = j)) as [->|Hne];
          [|rewrite list_lookup_insert_ne in Hst1 by done; by left].
        rewrite list_lookup_insert_eq in Hst1
          by (by eapply lookup_lt_Some). done.
      * destruct (decide (i = j)) as [->|Hne];
          [|rewrite list_lookup_insert_ne in Hst1 by done; by left].
        rewrite list_lookup_insert_eq in Hst1
          by (by eapply lookup_lt_Some). done.
      * destruct (decide (i = j)) as [->|Hne];
          [|rewrite list_lookup_insert_ne in Hst1 by done; by left].
        rewrite list_lookup_insert_eq in Hst1
          by (by eapply lookup_lt_Some).
        injection Hst1 as ->. right. apply elem_of_cons. by left.
    + intros r _ Hr. destruct Hspec; try (by apply Hres').
      destruct Hafter as [-> ->]; [by eexists|].
      simpl in Hr. injection Hr as <-. simpl.
      split; [done|]. by rewrite app_nil_r, last_snoc.
Qed.

(** As long as the coordinator cannot reach the send to background task
    [j], that task goes on waiting and [Run] does not return. *)
Lemma exec_still_waiting (j : nat) (tj : Task) (waits : nat → bool)
    (held : coordinator → Prop) (schedule : list choice)
    (st st' : run_state) (evs : list event) :
  background_tasks !! j = Some tj →
  waits_for_channel tj waits →
  (∀ c st evs st', step_spec this main_task background_tasks c st evs st' → held (rs_coordinator st) →
                   held (rs_coordinator st')) →
  ¬ held (CoSend j) →
  exec this main_task background_tasks schedule st = Some (evs, st') →
  held (rs_coordinator st) → still_waiting j waits st →
  held (rs_coordinator st') ∧ still_waiting j waits st'.
Proof.
  intros Htj [_ Hwaits] Hkeep Hnot. revert schedule st evs st'.
  apply (exec_steps (λ st evs st',
    held (rs_coordinator st) → still_waiting j waits st →
    held (rs_coordinator st') ∧ still_waiting j waits st')); [done|].
  intros c st evs1 st1 evs2 st2 _ _ Hspec IH Hheld (_ & pc & Hpc & Hw).
  apply IH; [by eapply Hkeep|]. clear IH Hkeep. unfold still_waiting.
  destruct Hspec as
    [k pc' next ? Hm Hmv
    |k pc' next ? Hm Hmv Hco
    |k pc' err ? Hm Hmv
    |i k t pc' next ? Ht Hbg Hmv
    |i k t pc' next ? Ht Hbg Hmv Hco
    |i k t pc' err ? Ht Hbg Hmv
    |i ? Hco Hlt Hlog
    |i ? Hco Hlt Hlog
    |i ? Hco Hge
    |err ? Hm Hall]; simpl in *;
    try (split; [done|]; by exists pc).
  - split; [done|]. destruct (decide (i = j)) as [->|Hne].
    + exists next.
      rewrite list_lookup_insert_eq by (by eapply lookup_lt_Some).
      split; [done|]. simplify_eq.
      apply (Hwaits _ (Tau next) Hw). by eapply list_elem_of_lookup_2.
    + exists pc. by rewrite list_lookup_insert_ne.
  - split; [done|]. destruct (decide (i = j)) as [->|Hne].
    + destruct Hnot. by rewrite <- Hco.
    + exists pc. by rewrite list_lookup_insert_ne.
  - split; [done|]. destruct (decide (i = j)) as [->|Hne].
    + simplify_eq.
      destruct (Hwaits _ (Return err) Hw). by eapply list_elem_of_lookup_2.
    + exists pc. by rewrite list_lookup_insert_ne.
  - apply Is_true_true_2, forallb_True in Hall.
    rewrite Forall_lookup in Hall. by destruct (Hall j _ Hpc).
Qed.

End Steps.

Lemma run_hooks_task_free (this : AppInstance) (ms : list ModuleRef) :
  existsb task_event (run_hooks heap this ms).1 = false.
Proof.
  induction ms as [|q rest IH]; simpl; [done|].
  destruct (heap q) as [module|]; [|done].
  destruct (Run module) as [run|]; [|done].
  unfold emit. by destruct (run this (byname this !! Name module)).
Qed.

Lemma task_free_done_indices (evs : list event) :
  existsb task_event evs = false → done_indices evs = [].
Proof.
  induction evs as [|ev evs IH]; [done|]. by destruct ev.
Qed.

Lemma task_free_elem_of (evs : list event) (ev : event) :
  existsb task_event evs = false → ev ∈ evs → task_event ev = false.
Proof.
  induction evs as [|ev' evs IH]; simpl.
  - by intros _ ?%elem_of_nil.
  - intros [? ?]%orb_false_elim [->|?]%elem_of_cons; [done|by apply IH].
Qed.

(** [Run] once the [Run] hooks have all succeeded: the tasks run from
    their starting points. *)
Lemma Run_started (this : AppInstance) (main_task : MainTask)
    (background_tasks : list BackgroundTask) (schedule : list choice) :
  (run_hooks heap this (modules this)).2 = Ok tt →
  AppInstance_Run heap this main_task background_tasks schedule
  = match exec this (main_task this) ((λ t, t this) <$> background_tasks)
            schedule
            (initial (main_task this) ((λ t, t this) <$> background_tasks))
    with
    | None => ((run_hooks heap this (modules this)).1, Infeasible)
    | Some (evs, st) =>
        ((run_hooks heap this (modules this)).1 ++ evs,
         match rs_result st with
         | Some err => Finished err
         | None => if rs_crashed st then Crashed else Unfinished
         end)
    end.
Proof.
  unfold AppInstance_Run.
  destruct (run_hooks heap this (modules this)) as [hook_evs r]. simpl.
  by intros ->.
Qed.

(** X18: under every schedule the termination signal goes to the
    background tasks in the order of the task list, without a gap and
    without a repeat: at any moment the tasks that have been given [DONE]
    are the first [k] of the list. *)
Theorem Run_done_in_index_order (this : AppInstance) (main_task : MainTask)
    (background_tasks : list BackgroundTask) (schedule : list choice) :
  ∃ k, k ≤ length background_tasks ∧
       done_indices
         (AppInstance_Run heap this main_task background_tasks schedule).1
       = seq 0 k.
Proof.
  pose proof (run_hooks_task_free this (modules this)) as Hfree.
  apply task_free_done_indices in Hfree.
  unfold AppInstance_Run.
  destruct (run_hooks heap this (modules this)) as [hook_evs [[]|e|]];
    simpl in *; [|exists 0; split; [lia|done]..].
  destruct (exec _ _ _ _ _) as [[evs st]|] eqn:Hexec; simpl;
    [|exists 0; split; [lia|done]].
  apply exec_done_order in Hexec as (k & Hdone & Hindex & Hrange); [|done].
  rewrite length_fmap in *. simpl in *.
  exists k. split; [|by rewrite done_indices_app, Hfree, Hdone].
  unfold BackgroundTask in *.
  destruct (rs_coordinator st); simpl in *; lia.
Qed.

(** X19: [Run] returns only after every background task has returned:
    when the tasks were started and [Run] returns [r], each background
    task has returned before, and the return of [Run] is the last thing
    that happens. *)
Theorem Run_waits_for_background_tasks (this : AppInstance)
    (main_task : MainTask) (background_tasks : list BackgroundTask)
    (schedule : list choice) (evs : list event) (r : option error) :
  (run_hooks heap this (modules this)).2 = Ok tt →
  AppInstance_Run heap this main_task background_tasks schedule
    = (evs, Finished r) →
  last evs = Some (EvRunReturn r) ∧
  ∀ i, i < length background_tasks → ∃ e, EvBackgroundReturn i e ∈ evs.
Proof.
  intros Hhooks. rewrite (Run_started _ _ _ _ Hhooks).
  destruct (exec _ _ _ _ _) as [[evs' st]|] eqn:Hexec; [|done].
  intros [= <- Hres].
  assert (rs_result st = Some r) as Hr.
  { destruct (rs_result st); [congruence|]. by destruct (rs_crashed st). }
  apply exec_waits_for_all in Hexec as (Hlen & Hret & Hfin & _).
  destruct (Hfin r eq_refl Hr) as [Hall Hlast]. split.
  { by rewrite last_app, Hlast. }
  intros i Hi. simpl in Hlen. rewrite !length_fmap in Hlen.
  unfold BackgroundTask in *.
  destruct (lookup_lt_is_Some_2 (rs_background st) i) as [t Ht]; [lia|].
  apply Is_true_true_2, forallb_True in Hall.
  rewrite Forall_lookup in Hall. specialize (Hall i t Ht).
  destruct t as [pc|e]; [done|]. exists e.
  destruct (Hret i e Ht) as [Hstart|Hin].
  - simpl in Hstart. rewrite !list_lookup_fmap in Hstart.
    by destruct (background_tasks !! i).
  - apply elem_of_app. by right.
Qed.

(** What keeps [Run] from returning: a background task that waits for
    [DONE] while the coordinator cannot get to it. *)
Lemma Run_blocked (held : coordinator → Prop) (this : AppInstance)
    (main_task : MainTask) (background_tasks : list BackgroundTask)
    (j : nat) (tj : BackgroundTask) (waits : nat → bool)
    (schedule : list choice) (r : option error) :
  (run_hooks heap this (modules this)).2 = Ok tt →
  background_tasks !! j = Some tj →
  waits_for_channel (tj this) waits →
  held CoWaitMain →
  ¬ held (CoSend j) →
  (∀ c st evs st',
     step_spec this (main_task this) ((λ t, t this) <$> background_tasks)
       c st evs st' →
     held (rs_coordinator st) → held (rs_coordinator st')) →
  (AppInstance_Run heap this main_task background_tasks schedule).2
    ≠ Finished r.
Proof.
  intros Hhooks Hj Hwaits Hstart Hnot Hkeep.
  unfold BackgroundTask in *.
  rewrite (Run_started _ _ _ _ Hhooks).
  destruct (exec _ _ _ _ _) as [[evs st]|] eqn:Hexec; [|done].
  eapply (exec_still_waiting _ _ _ j (tj this) waits held) in Hexec
    as [_ [Hnone _]]; try done.
  - simpl. rewrite Hnone. by destruct (rs_crashed st).
  - by rewrite list_lookup_fmap, Hj.
  - split; [done|]. exists (task_start (tj this)). simpl.
    rewrite !list_lookup_fmap, Hj. split; [done|]. by destruct Hwaits.
Qed.

(** X20: a main task that returns without sending on its channel leaves
    [Run] blocked for ever when some background task waits for [DONE]:
    the coordinator never gets the signal it waits for, so under no
    schedule does [Run] return. *)
Theorem Run_blocks_without_main_signal (this : AppInstance)
    (main_task : MainTask) (background_tasks : list BackgroundTask)
    (j : nat) (tj : BackgroundTask) (waits : nat → bool)
    (schedule : list choice) (r : option error) :
  (run_hooks heap this (modules this)).2 = Ok tt →
  never_communicates (main_task this) →
  background_tasks !! j = Some tj →
  waits_for_channel (tj this) waits →
  (AppInstance_Run heap this main_task background_tasks schedule).2
    ≠ Finished r.
Proof.
  intros Hhooks Hmain Hj Hwaits.
  apply (Run_blocked (λ c, c = CoWaitMain) this main_task background_tasks
           j tj waits); try done.
  intros c st evs st' Hspec Hco.
  destruct Hspec; simpl; try done; try congruence.
  destruct (Hmain pc next). by eapply list_elem_of_lookup_2.
Qed.

(** X21: the coordinator hands out [DONE] one task at a time and blocks
    on each send, so a background task that never receives on its channel
    (one that returned early, for example) keeps every later task from
    being signalled: when a later task waits for [DONE], [Run] returns
    under no schedule. *)
Theorem Run_blocks_behind_silent_task (this : AppInstance)
    (main_task : MainTask) (background_tasks : list BackgroundTask)
    (i j : nat) (ti tj : BackgroundTask) (waits : nat → bool)
    (schedule : list choice) (r : option error) :
  (run_hooks heap this (modules this)).2 = Ok tt →
  background_tasks !! i = Some ti →
  never_communicates (ti this) →
  i < j →
  background_tasks !! j = Some tj →
  waits_for_channel (tj this) waits →
  (AppInstance_Run heap this main_task background_tasks schedule).2
    ≠ Finished r.
Proof.
  intros Hhooks Hi Hsilent Hij Hj Hwaits.
  unfold BackgroundTask in *.
  apply (Run_blocked (coordinator_up_to i) this main_task background_tasks
           j tj waits); try done.
  { simpl. lia. }
  intros c st evs st' Hspec Hco.
  destruct Hspec as
    [k pc' next ? Hm Hmv
    |k pc' next ? Hm Hmv Hc
    |k pc' err ? Hm Hmv
    |i' k t pc' next ? Ht Hbg Hmv
    |i' k t pc' next ? Ht Hbg Hmv Hc
    |i' k t pc' err ? Ht Hbg Hmv
    |i' ? Hc Hlt Hlog
    |i' ? Hc Hlt Hlog
    |i' ? Hc Hge
    |err ? Hm Hall]; simpl; try done;
    try (rewrite Hc in Hco; simpl in Hco).
  - lia.
  - destruct (decide (i' = i)) as [->|Hne]; [|lia].
    rewrite list_lookup_fmap, Hi in Ht. injection Ht as <-.
    destruct (Hsilent pc' next). by eapply list_elem_of_lookup_2.
  - done.
  - done.
  - apply lookup_lt_Some in Hi. rewrite length_fmap in Hge. lia.
Qed.

(** With a logger in place, the cooperating tasks bring [Run] to its
    return with the coordinator through its loop. *)
Lemma exec_cooperative_exit (this : AppInstance) (err : option error)
    (errs : list (option error)) :
  has_logger this = true →
  ∃ evs st,
    exec this (signalling err) (waiting <$> errs)
      (drain_schedule (length errs))
      (initial (signalling err) (waiting <$> errs)) = Some (evs, st) ∧
    rs_result st = Some err ∧ rs_coordinator st = CoExit.
Proof.
  intros Hlogger. unfold drain_schedule.
  destruct (serve_all this err errs (length errs) 0 Hlogger) as [evs Hserve];
    [done|].
  assert (initial (signalling err) (waiting <$> errs)
          = {| rs_main := Running 0; rs_background := served errs 0;
               rs_coordinator := CoWaitMain; rs_crashed := false;
               rs_result := None |}) as ->.
  { unfold initial. f_equal. apply list_eq. intros j. unfold served.
    rewrite !list_lookup_fmap, list_lookup_imap.
    by destruct (errs !! j). }
  cbn [exec]. unfold step at 1. simpl.
  fold (serving errs 0). rewrite exec_app, Hserve.
  simpl. unfold step at 1. simpl. unfold step_coordinator. simpl.
  rewrite length_fmap, decide_False by lia.
  unfold step at 1. simpl.
  unfold step at 1. simpl. unfold step_wait. simpl.
  rewrite served_all_returned. eauto.
Qed.

(** X22: [Run] does return when its tasks cooperate.  With no failing
    [Run] hook, a logger in the instance, a main task that sends on its
    channel and then returns [err], and background tasks that wait for
    [DONE] and then return, the schedule in which the coordinator serves
    the tasks in turn ends with [Run] returning [err], after every
    background task has been given [DONE], in the order of the list. *)
Theorem Run_cooperative_delivers_all (this : AppInstance)
    (err : option error) (errs : list (option error)) :
  (run_hooks heap this (modules this)).2 = Ok tt →
  is_Some (Logger this) →
  (AppInstance_Run heap this (fun _ => signalling err)
     ((fun e _ => waiting e) <$> errs) (drain_schedule (length errs))).2
  = Finished err ∧
  done_indices
    (AppInstance_Run heap this (fun _ => signalling err)
       ((fun e _ => waiting e) <$> errs) (drain_schedule (length errs))).1
  = seq 0 (length errs).
Proof.
  intros Hhooks Hlogger. rewrite (Run_started _ _ _ _ Hhooks).
  rewrite <- list_fmap_compose.
  change ((λ t : AppInstance → Task, t this) ∘ (λ e _, waiting e))
    with waiting.
  destruct (exec_cooperative_exit this err errs) as (evs & st & Hexec & Hr & Hco).
  { by apply bool_decide_eq_true_2. }
  rewrite Hexec. simpl. rewrite Hr. split; [done|].
  rewrite done_indices_app,
    (task_free_done_indices _ (run_hooks_task_free this (modules this))).
  apply exec_done_order in Hexec as (k & Hdone & Hindex & _); [|done].
  rewrite Hco in Hindex. simpl in *. rewrite length_fmap in Hindex.
  by rewrite Hdone, Hindex.
Qed.

(** The coordinator logs through [this.Logger] before each send without
    a nil check, so it sends nothing when there is no logger. *)
Lemma exec_without_logger (this : AppInstance) (main_task : Task)
    (background_tasks : list Task) (schedule : list choice)
    (st st' : run_state) (evs : list event) :
  has_logger this = false →
  exec this main_task background_tasks schedule st = Some (evs, st') →
  (∀ i, rs_coordinator st ≠ CoSend i) →
  done_indices evs = [].
Proof.
  intros Hlogger. revert schedule st evs st'.
  apply (exec_steps this main_task background_tasks (λ st evs st',
    (∀ i, rs_coordinator st ≠ CoSend i) → done_indices evs = [])); [done|].
  intros c st evs1 st1 evs2 st2 _ _ Hspec IH Hco.
  rewrite done_indices_app, IH, app_nil_r.
  - destruct Hspec as
      [k pc' next ? Hm Hmv
      |k pc' next ? Hm Hmv Hc
      |k pc' err ? Hm Hmv
      |i' k t pc' next ? Ht Hbg Hmv
      |i' k t pc' next ? Ht Hbg Hmv Hc
      |i' k t pc' err ? Ht Hbg Hmv
      |i' ? Hc Hlt Hlog
      |i' ? Hc Hlt Hlog
      |i' ? Hc Hge
      |err ? Hm Hall]; simpl; unfold log_if_logger; rewrite ?Hlogger;
      try done.
    + by destruct (decide _).
    + by destruct (Hco i').
    + by destruct err.
  - destruct Hspec; simpl; try done. congruence.
Qed.

(** X23: an instance without a logger (one that has been closed, for
    example) never gets a termination signal to a background task: under
    every schedule no [DONE] is delivered, and with a background task that
    waits for it [Run] does not return. *)
Theorem Run_without_logger (this : AppInstance) (main_task : MainTask)
    (background_tasks : list BackgroundTask) (schedule : list choice)
    (j : nat) (tj : BackgroundTask) (waits : nat → bool)
    (r : option error) :
  Logger this = None →
  (run_hooks heap this (modules this)).2 = Ok tt →
  background_tasks !! j = Some tj →
  waits_for_channel (tj this) waits →
  done_indices
    (AppInstance_Run heap this main_task background_tasks schedule).1 = [] ∧
  (AppInstance_Run heap this main_task background_tasks schedule).2
    ≠ Finished r.
Proof.
  intros Hnil Hhooks Hj Hwaits.
  assert (has_logger this = false) as Hlogger.
  { unfold has_logger. rewrite Hnil. apply bool_decide_eq_false_2.
    by intros [? ?]. }
  split.
  - rewrite (Run_started _ _ _ _ Hhooks).
    destruct (exec _ _ _ _ _) as [[evs st]|] eqn:Hexec; simpl.
    + rewrite done_indices_app,
        (task_free_done_indices _ (run_hooks_task_free this (modules this))).
      by eapply exec_without_logger.
    + apply task_free_done_indices, run_hooks_task_free.
  - apply (Run_blocked (λ c, ∀ i, c ≠ CoSend i) this main_task
             background_tasks j tj waits); try done.
    { intros H. by destruct (H j). }
    intros c st evs st' Hspec Hco.
    destruct Hspec; simpl; try done. congruence.
Qed.

End MoreRun.

(** * Further properties of the configuration *)

Section MoreConfig.
Context `{FO : FlagsOps}.
Variable heap : ModuleRef -> option Module.
Variable ModuleWithDependencies : string -> list ModuleRef * option error.
Variable path_Base : string -> string.

Lemma AppendModulesByName_elem_of (names : list string)
    (modules result : list ModuleRef) (m : ModuleRef) :
  AppendModulesByName ModuleWithDependencies modules names = (result, None) →
  m ∈ result ↔
  m ∈ modules ∨ ∃ name, name ∈ names ∧ m ∈ (ModuleWithDependencies name).1.
Proof.
  revert modules. induction names as [|name rest IH]; intros modules; simpl.
  - intros [= <-]. split; [by left|]. intros [?|(? & ?%elem_of_nil & _)]; done.
  - destruct (ModuleWithDependencies name) as [module_array [err|]] eqn:Hname;
      [discriminate|].
    intros ->%IH. rewrite appendModules_elem_of. split.
    + intros [[?|?]|(n & ? & ?)]; [by left | |].
      * right. exists name. rewrite Hname. split; [|done].
        apply elem_of_cons. by left.
      * right. exists n. split; [|done]. apply elem_of_cons. by right.
    + intros [?|(n & [->|?]%elem_of_cons & Hm)]; [by left; left | |].
      * rewrite Hname in Hm. left. by right.
      * right. by exists n.
Qed.

Lemma AppendModulesByName_error (modules : list ModuleRef)
    (good rest : list string) (bad : string) (err : error) :
  (∀ name, name ∈ good → (ModuleWithDependencies name).2 = None) →
  (ModuleWithDependencies bad).2 = Some err →
  AppendModulesByName ModuleWithDependencies modules (good ++ bad :: rest)
    = ([], Some err).
Proof.
  revert modules. induction good as [|name good IH]; intros modules Hgood Hbad.
  - simpl. destruct (ModuleWithDependencies bad) as [deps e].
    simpl in Hbad. by subst e.
  - simpl. pose proof (Hgood name) as Hname.
    destruct (ModuleWithDependencies name) as [deps [e|]].
    + discriminate Hname. apply elem_of_cons. by left.
    + apply IH; [|done]. intros n Hn. apply Hgood, elem_of_cons. by right.
Qed.

(** X24: the module list of a configuration that [NewAppConfig] builds
    without an error holds no module twice and holds exactly the modules
    that the resolver gives for "logger" and for the requested names; the
    resolver is taken to give a list without repetition for "logger" and
    the [Config] hooks to leave the module list alone. *)
Theorem NewAppConfig_modules (arg0 : string) (args names : list string)
    (config : AppConfig) :
  hooks_keep_modules heap →
  NoDup (ModuleWithDependencies "logger").1 →
  NewAppConfig heap ModuleWithDependencies path_Base arg0 args names
    = ([], Ok config) →
  NoDup (Modules config) ∧
  ∀ m, m ∈ Modules config ↔
       ∃ name, name ∈ "logger" :: names ∧
               m ∈ (ModuleWithDependencies name).1.
Proof.
  intros Hkeep Hnd. unfold NewAppConfig.
  destruct (ModuleWithDependencies "logger") as [logger_modules [err|]]
    eqn:Hlogger; [done|].
  destruct (AppendModulesByName _ logger_modules names)
    as [all_modules [err|]] eqn:Happend; [done|].
  intros [= Hhooks]. apply config_hooks_Modules in Hhooks; [|done].
  simpl in Hhooks. rewrite Hhooks. split.
  - by destruct (AppendModulesByName_NoDup _ _ _ _ Hnd Happend).
  - intros m. rewrite (AppendModulesByName_elem_of _ _ _ _ Happend). split.
    + intros [?|(n & ? & ?)].
      * exists "logger". rewrite Hlogger. split; [|done].
        apply elem_of_cons. by left.
      * exists n. split; [|done]. apply elem_of_cons. by right.
    + intros (n & [->|?]%elem_of_cons & Hm).
      * rewrite Hlogger in Hm. by left.
      * right. by exists n.
Qed.

(** X25: when a requested name does not resolve, [NewAppConfig] prints
    the error of the first such name and returns the empty configuration,
    whatever names come after it; [NewAppInstance] refuses that
    configuration with [ErrAppError] and calls no hook. *)
Theorem NewAppConfig_unresolved_name (arg0 : string)
    (args good rest : list string) (bad : string) (err : error) :
  (∀ name, name ∈ "logger" :: good →
           (ModuleWithDependencies name).2 = None) →
  (ModuleWithDependencies bad).2 = Some err →
  NewAppConfig heap ModuleWithDependencies path_Base arg0 args
    (good ++ bad :: rest) = ([EvStderr err], Ok AppConfig_zero) ∧
  ∀ config,
    (NewAppConfig heap ModuleWithDependencies path_Base arg0 args
       (good ++ bad :: rest)).2 = Ok config →
    NewAppInstance heap config = ([], Err ErrAppError).
Proof.
  intros Hgood Hbad.
  assert (NewAppConfig heap ModuleWithDependencies path_Base arg0 args
            (good ++ bad :: rest) = ([EvStderr err], Ok AppConfig_zero))
    as Heq.
  { unfold NewAppConfig. pose proof (Hgood "logger") as Hlogger.
    destruct (ModuleWithDependencies "logger") as [logger_modules [e|]].
    { discriminate Hlogger. apply elem_of_cons. by left. }
    rewrite (AppendModulesByName_error logger_modules good rest bad err);
      [done | | done].
    intros n Hn. apply Hgood, elem_of_cons. by right. }
  rewrite Heq. split; [done|]. by intros config [= <-].
Qed.

End MoreConfig.

(** * The further properties on the sample programs *)

Section MoreSamples.
#[local] Existing Instance Demo.toy.

(** Resolving logger, bus, camera and sensor stops at the camera. *)
Lemma AppendModulesByName_first_error_witness :
  (∀ name, name ∈ ["logger"; "bus"] →
           (Demo.ModuleWithDependencies name).2 = None) ∧
  (Demo.ModuleWithDependencies "camera").2
    = Some (ErrExternal "module not registered: camera") ∧
  (AppendModulesByName Demo.ModuleWithDependencies [] ["logger"; "bus"]).2
    = None ∧
  AppendModulesByName Demo.ModuleWithDependencies []
    (["logger"; "bus"] ++ "camera" :: ["sensor"])
    = ([], Some (ErrExternal "module not registered: camera")).
Proof.
  assert (∀ name, name ∈ ["logger"; "bus"] →
                  (Demo.ModuleWithDependencies name).2 = None) as Hgood.
  { intros name Hin.
    repeat (apply elem_of_cons in Hin as [->|Hin]; [reflexivity|]).
    by apply elem_of_nil in Hin. }
  assert ((Demo.ModuleWithDependencies "camera").2
          = Some (ErrExternal "module not registered: camera")) as Hbad
    by reflexivity.
  split; [exact Hgood|]. split; [exact Hbad|].
  exact (AppendModulesByName_first_error Demo.ModuleWithDependencies []
           ["logger"; "bus"] ["sensor"] "camera" _ Hgood Hbad).
Defined.

(** A second driver under the name of the logger. *)
Lemma setModuleInstance_duplicate_name_witness :
  is_Some (byname Demo.with_logger !! Name Demo.logger_module) ∧
  setModuleInstance 1 Demo.logger_module Demo.second_logger_driver
    Demo.with_logger
    = (Demo.with_logger, Some (ErrDuplicateName (Name Demo.logger_module))) ∧
  error_text (ErrDuplicateName (Name Demo.logger_module))
    = Some ("setModuleInstance: Duplicate module with name '"
            +:+ Name Demo.logger_module +:+ "'") ∧
  ∀ name, ModuleInstance Discovery.reserved_words name
            (setModuleInstance 1 Demo.logger_module
               Demo.second_logger_driver Demo.with_logger).1
          = ModuleInstance Discovery.reserved_words name Demo.with_logger.
Proof.
  assert (is_Some (byname Demo.with_logger !! Name Demo.logger_module))
    as Htaken by (vm_compute; eauto).
  split; [exact Htaken|].
  exact (setModuleInstance_duplicate_name Discovery.reserved_words 1
           Demo.logger_module Demo.second_logger_driver Demo.with_logger
           Htaken).
Defined.

(** The logger registered in a fresh instance. *)
Lemma setModuleInstance_registers_witness :
  (setModuleInstance 1 Demo.logger_module Demo.logger_driver Demo.fresh).2
    = None ∧
  let this' := (setModuleInstance 1 Demo.logger_module Demo.logger_driver
                  Demo.fresh).1 in
  byname this' !! Name Demo.logger_module = Some Demo.logger_driver ∧
  last (byorder this') = Some Demo.logger_driver ∧
  (singleton_type (Type_ Demo.logger_module) = true →
   bytype this' !! Type_ Demo.logger_module = Some Demo.logger_driver) ∧
  (∀ i, interface_of_type (Type_ Demo.logger_module) = Some i →
        field i this' = Some Demo.logger_driver ∧
        implements Demo.logger_driver i = true) ∧
  (Discovery.reserved_words !! Name Demo.logger_module = None →
   ModuleInstance Discovery.reserved_words (Name Demo.logger_module) this'
     = Some Demo.logger_driver) ∧
  (∀ word, Discovery.reserved_words !! word
             = Some (Type_ Demo.logger_module) →
           singleton_type (Type_ Demo.logger_module) = true →
           ModuleInstance Discovery.reserved_words word this'
             = Some Demo.logger_driver).
Proof.
  assert ((setModuleInstance 1 Demo.logger_module Demo.logger_driver
             Demo.fresh).2 = None) as Hok by (by vm_compute).
  split; [exact Hok|].
  exact (setModuleInstance_registers Discovery.reserved_words 1
           Demo.logger_module Demo.logger_driver Demo.fresh Hok).
Defined.

(** A driver that is no logger, offered for the type logger. *)
Lemma setModuleInstance_cannot_cast_witness :
  byname Demo.fresh !! Name Discovery.mute_module = None ∧
  bytype Demo.fresh !! Type_ Discovery.mute_module = None ∧
  interface_of_type (Type_ Discovery.mute_module) = Some IfLogger ∧
  implements Discovery.mute_driver IfLogger = false ∧
  let this' := (setModuleInstance 8 Discovery.mute_module
                  Discovery.mute_driver Demo.fresh).1 in
  (setModuleInstance 8 Discovery.mute_module Discovery.mute_driver
     Demo.fresh).2 = Some (ErrCannotCast 8 IfLogger) ∧
  byname this'
    = <[Name Discovery.mute_module := Discovery.mute_driver]>
        (byname Demo.fresh) ∧
  bytype this'
    = <[Type_ Discovery.mute_module := Discovery.mute_driver]>
        (bytype Demo.fresh) ∧
  byorder this' = byorder Demo.fresh ++ [Discovery.mute_driver] ∧
  field IfLogger this' = None.
Proof.
  assert (byname Demo.fresh !! Name Discovery.mute_module = None) as Hname
    by reflexivity.
  assert (bytype Demo.fresh !! Type_ Discovery.mute_module = None) as Htype
    by reflexivity.
  assert (interface_of_type (Type_ Discovery.mute_module) = Some IfLogger)
    as Hif by reflexivity.
  assert (implements Discovery.mute_driver IfLogger = false) as Himpl
    by (by vm_compute).
  split_and!; [exact Hname | exact Htype | exact Hif | exact Himpl | ..];
    apply (setModuleInstance_cannot_cast 8 Discovery.mute_module
             Discovery.mute_driver Demo.fresh IfLogger Hname Htype Hif Himpl).
Defined.

(** The sensor, of type other, registered beside the logger. *)
Lemma setModuleInstance_unconstrained_witness :
  byname Demo.with_logger !! Name Demo.sensor_module = None ∧
  singleton_type (Type_ Demo.sensor_module) = false ∧
  let this' := (setModuleInstance 3 Demo.sensor_module Demo.sensor_driver
                  Demo.with_logger).1 in
  (setModuleInstance 3 Demo.sensor_module Demo.sensor_driver
     Demo.with_logger).2 = None ∧
  byname this'
    = <[Name Demo.sensor_module := Demo.sensor_driver]>
        (byname Demo.with_logger) ∧
  bytype this' = bytype Demo.with_logger ∧
  byorder this' = byorder Demo.with_logger ++ [Demo.sensor_driver] ∧
  ∀ i, field i this' = field i Demo.with_logger.
Proof.
  assert (byname Demo.with_logger !! Name Demo.sensor_module = None)
    as Hname by (by vm_compute).
  assert (singleton_type (Type_ Demo.sensor_module) = false) as Hfree
    by (by vm_compute).
  split_and!; [exact Hname | exact Hfree | ..];
    apply (setModuleInstance_unconstrained 3 Demo.sensor_module
             Demo.sensor_driver Demo.with_logger Hname Hfree).
Defined.

(** The instance of a program started with the debug flag reports it. *)
Lemma NewAppInstance_settings_witness :
  NewAppInstance Demo.heap Discovery.debug_config
    = ((NewAppInstance Demo.heap Discovery.debug_config).1,
       Ok Discovery.debug_instance) ∧
  AppInstance_Debug Discovery.debug_instance = true ∧
  ∃ flags0 flags,
    AppFlags Discovery.debug_config = Some flags0 ∧
    flags = (if Parsed flags0 then flags0
             else (Parse flags0 (AppArgs Discovery.debug_config)).1) ∧
    this_AppFlags Discovery.debug_instance = Some flags ∧
    modules Discovery.debug_instance = Modules Discovery.debug_config ∧
    AppInstance_Debug Discovery.debug_instance
      = (if (GetBool flags "debug").2 then (GetBool flags "debug").1
         else Debug Discovery.debug_config) ∧
    AppInstance_Verbose Discovery.debug_instance
      = (if (GetBool flags "verbose").2 then (GetBool flags "verbose").1
         else Verbose Discovery.debug_config) ∧
    AppInstance_Service Discovery.debug_instance
      = (if decide (Service Discovery.debug_config = "")
         then FlagsName flags else Service Discovery.debug_config).
Proof.
  assert (NewAppInstance Demo.heap Discovery.debug_config
          = ((NewAppInstance Demo.heap Discovery.debug_config).1,
             Ok Discovery.debug_instance)) as Hbuild by (by vm_compute).
  split_and!; [exact Hbuild | by vm_compute |].
  exact (NewAppInstance_settings Demo.heap Discovery.debug_config _
           Discovery.debug_instance Hbuild).
Defined.

(** A configuration whose only module has no [New] hook. *)
Lemma NewAppInstance_without_New_panics_witness :
  AppFlags (Demo.config_of [7] []) = Some Demo.flags ∧
  (Parsed Demo.flags = true ∨
   (Parse Demo.flags (AppArgs (Demo.config_of [7] []))).2 = None) ∧
  (∀ p, p ∈ Modules (Demo.config_of [7] []) →
        ∃ module, Demo.heap p = Some module ∧ New module = None) ∧
  NewAppInstance Demo.heap (Demo.config_of [7] []) = ([], Panic).
Proof.
  assert (AppFlags (Demo.config_of [7] []) = Some Demo.flags) as Hflags
    by reflexivity.
  assert (Parsed Demo.flags = true ∨
          (Parse Demo.flags (AppArgs (Demo.config_of [7] []))).2 = None)
    as Hparse by (right; by vm_compute).
  assert (∀ p, p ∈ Modules (Demo.config_of [7] []) →
               ∃ module, Demo.heap p = Some module ∧ New module = None)
    as Hmodules.
  { intros p Hp. apply list_elem_of_singleton in Hp as ->.
    by exists Demo.stubborn_module. }
  split_and!; [exact Hflags | exact Hparse | exact Hmodules |].
  exact (NewAppInstance_without_New_panics Demo.heap
           (Demo.config_of [7] []) Demo.flags Hflags Hparse Hmodules).
Defined.

(** Teardown of logger, bus and sensor: the error of the bus is logged. *)
Lemma Close_logs_close_errors_witness :
  is_Some (Logger Demo.three_drivers) ∧
  close_errors (AppInstance_Close Demo.three_drivers).1
    = [ErrExternal "bus busy"] ∧
  close_errors (AppInstance_Close Demo.three_drivers).1
    = omap drv_close (reverse (byorder Demo.three_drivers)) ∧
  ∃ this', (AppInstance_Close Demo.three_drivers).2 = Ok (this', None).
Proof.
  assert (is_Some (Logger Demo.three_drivers)) as Hlogger
    by (vm_compute; eauto).
  split_and!; [exact Hlogger | by vm_compute | ..];
    apply (Close_logs_close_errors Demo.three_drivers Hlogger).
Defined.

(** After teardown nothing is found under a reserved word or a name. *)
Lemma Close_releases_everything_witness :
  is_Some (Logger Demo.three_drivers) ∧
  ModuleInstance Discovery.reserved_words "i2c" Demo.three_drivers
    = Some Demo.bus_driver ∧
  ∃ evs this',
    AppInstance_Close Demo.three_drivers = (evs, Ok (this', None)) ∧
    (∀ name, ModuleInstance Discovery.reserved_words name this' = None) ∧
    (∀ i, field i this' = None) ∧
    byorder this' = [] ∧
    settings this' = settings Demo.three_drivers ∧
    AppInstance_Close this' = ([], Panic).
Proof.
  assert (is_Some (Logger Demo.three_drivers)) as Hlogger
    by (vm_compute; eauto).
  split_and!; [exact Hlogger | by vm_compute |].
  exact (Close_releases_everything Discovery.reserved_words
           Demo.three_drivers Hlogger).
Defined.

(** The module whose [Run] hook fails, under a schedule of two steps. *)
Lemma Run_hook_error_witness :
  (run_hooks Demo.heap Demo.with_stubborn (modules Demo.with_stubborn)).2
    = Err (ErrExternal "not ready") ∧
  AppInstance_Run Demo.heap Demo.with_stubborn Demo.returning_main
    [Demo.waiting_background] [RunMain 0; RunWait]
    = ((run_hooks Demo.heap Demo.with_stubborn
          (modules Demo.with_stubborn)).1,
       Finished (Some (ErrExternal "not ready"))) ∧
  existsb task_event
    (run_hooks Demo.heap Demo.with_stubborn (modules Demo.with_stubborn)).1
    = false ∧
  ∃ p module run,
    Demo.heap p = Some module ∧ Run module = Some run ∧
    run Demo.with_stubborn (byname Demo.with_stubborn !! Name module)
      = Some (ErrExternal "not ready") ∧
    last (run_hooks Demo.heap Demo.with_stubborn
            (modules Demo.with_stubborn)).1
      = Some (EvRunHook p (byname Demo.with_stubborn !! Name module)
                (Some (ErrExternal "not ready"))).
Proof.
  assert ((run_hooks Demo.heap Demo.with_stubborn
             (modules Demo.with_stubborn)).2
          = Err (ErrExternal "not ready")) as Hhook by (by vm_compute).
  split; [exact Hhook|].
  exact (Run_hook_error Demo.heap Demo.with_stubborn Demo.returning_main
           [Demo.waiting_background] [RunMain 0; RunWait] _ Hhook).
Defined.

Lemma three_drivers_hooks :
  (run_hooks Demo.heap Demo.three_drivers (modules Demo.three_drivers)).2
    = Ok tt.
Proof. by vm_compute. Qed.

Lemma closed_instance_hooks :
  (run_hooks Demo.heap Discovery.closed_instance
     (modules Discovery.closed_instance)).2 = Ok tt.
Proof. by vm_compute. Qed.

Lemma returning_main_silent (this : AppInstance) :
  never_communicates (Demo.returning_main this).
Proof. intros pc next Hin. by apply list_elem_of_singleton in Hin. Qed.

Lemma BrowseLoop_no_service_silent (this : AppInstance) :
  never_communicates (Discovery.BrowseLoop_no_service this).
Proof. intros pc next Hin. by apply list_elem_of_singleton in Hin. Qed.

Lemma EventLoop_waits_for_channel (this : AppInstance) :
  waits_for_channel (Discovery.EventLoop this) Discovery.EventLoop_waits.
Proof.
  split; [done|]. intros pc m Hpc Hm.
  apply bool_decide_eq_true in Hpc as ->. simpl in Hm.
  apply elem_of_cons in Hm as [->|Hm]; [done|].
  by apply list_elem_of_singleton in Hm as ->.
Qed.

(** A complete run: the background task has returned when [Run] does. *)
Lemma Run_waits_for_background_tasks_witness :
  let run := AppInstance_Run Demo.heap Demo.three_drivers
               Demo.signalling_main [Demo.waiting_background]
               Demo.early_done in
  (run_hooks Demo.heap Demo.three_drivers (modules Demo.three_drivers)).2
    = Ok tt ∧
  run = (run.1, Finished None) ∧
  last run.1 = Some (EvRunReturn None) ∧
  ∀ i, i < length [Demo.waiting_background] →
       ∃ e, EvBackgroundReturn i e ∈ run.1.
Proof.
  cbv zeta.
  assert (AppInstance_Run Demo.heap Demo.three_drivers Demo.signalling_main
            [Demo.waiting_background] Demo.early_done
          = ((AppInstance_Run Demo.heap Demo.three_drivers
                Demo.signalling_main [Demo.waiting_background]
                Demo.early_done).1, Finished None)) as Hrun
    by (by vm_compute).
  split; [exact three_drivers_hooks|]. split; [exact Hrun|].
  exact (Run_waits_for_background_tasks Demo.heap Demo.three_drivers
           Demo.signalling_main [Demo.waiting_background] Demo.early_done
           _ None three_drivers_hooks Hrun).
Defined.

(** A main task that returns at once, with the event loop of the
    discovery command in the background. *)
Lemma Run_blocks_without_main_signal_witness :
  (run_hooks Demo.heap Demo.three_drivers (modules Demo.three_drivers)).2
    = Ok tt ∧
  never_communicates (Demo.returning_main Demo.three_drivers) ∧
  [Discovery.EventLoop] !! 0 = Some Discovery.EventLoop ∧
  waits_for_channel (Discovery.EventLoop Demo.three_drivers)
    Discovery.EventLoop_waits ∧
  ∀ schedule r,
    (AppInstance_Run Demo.heap Demo.three_drivers Demo.returning_main
       [Discovery.EventLoop] schedule).2 ≠ Finished r.
Proof.
  split_and!; [exact three_drivers_hooks | apply returning_main_silent
              | reflexivity | apply EventLoop_waits_for_channel |].
  intros schedule r.
  exact (Run_blocks_without_main_signal Demo.heap Demo.three_drivers
           Demo.returning_main [Discovery.EventLoop] 0 Discovery.EventLoop
           Discovery.EventLoop_waits schedule r three_drivers_hooks
           (returning_main_silent _) eq_refl
           (EventLoop_waits_for_channel _)).
Defined.

(** The discovery command without its service parameter: the browse loop
    returns an error at once, and the event loop behind it is never
    told to stop. *)
Lemma Run_blocks_behind_silent_task_witness :
  (run_hooks Demo.heap Demo.three_drivers (modules Demo.three_drivers)).2
    = Ok tt ∧
  [Discovery.BrowseLoop_no_service; Discovery.EventLoop] !! 0
    = Some Discovery.BrowseLoop_no_service ∧
  never_communicates (Discovery.BrowseLoop_no_service Demo.three_drivers) ∧
  0 < 1 ∧
  [Discovery.BrowseLoop_no_service; Discovery.EventLoop] !! 1
    = Some Discovery.EventLoop ∧
  waits_for_channel (Discovery.EventLoop Demo.three_drivers)
    Discovery.EventLoop_waits ∧
  ∀ schedule r,
    (AppInstance_Run Demo.heap Demo.three_drivers Discovery.MainLoop
       [Discovery.BrowseLoop_no_service; Discovery.EventLoop] schedule).2
    ≠ Finished r.
Proof.
  split_and!; [exact three_drivers_hooks | reflexivity
              | apply BrowseLoop_no_service_silent | lia | reflexivity
              | apply EventLoop_waits_for_channel |].
  intros schedule r.
  exact (Run_blocks_behind_silent_task Demo.heap Demo.three_drivers
           Discovery.MainLoop
           [Discovery.BrowseLoop_no_service; Discovery.EventLoop] 0 1
           Discovery.BrowseLoop_no_service Discovery.EventLoop
           Discovery.EventLoop_waits schedule r three_drivers_hooks
           eq_refl (BrowseLoop_no_service_silent _) (Nat.lt_0_succ 0) eq_refl
           (EventLoop_waits_for_channel _)).
Defined.

(** Two cooperating background tasks, the first of which returns an
    error. *)
Lemma Run_cooperative_delivers_all_witness :
  (run_hooks Demo.heap Demo.three_drivers (modules Demo.three_drivers)).2
    = Ok tt ∧
  is_Some (Logger Demo.three_drivers) ∧
  (AppInstance_Run Demo.heap Demo.three_drivers (fun _ => signalling None)
     ((fun e _ => waiting e) <$> [Some (ErrExternal "late"); None])
     (drain_schedule (length [Some (ErrExternal "late"); None]))).2
  = Finished None ∧
  done_indices
    (AppInstance_Run Demo.heap Demo.three_drivers (fun _ => signalling None)
       ((fun e _ => waiting e) <$> [Some (ErrExternal "late"); None])
       (drain_schedule (length [Some (ErrExternal "late"); None]))).1
  = seq 0 (length [Some (ErrExternal "late"); None]).
Proof.
  assert (is_Some (Logger Demo.three_drivers)) as Hlogger
    by (vm_compute; eauto).
  split; [exact three_drivers_hooks|]. split; [exact Hlogger|].
  exact (Run_cooperative_delivers_all Demo.heap Demo.three_drivers None
           [Some (ErrExternal "late"); None] three_drivers_hooks Hlogger).
Defined.

(** The discovery command run on an instance that has been closed. *)
Lemma Run_without_logger_witness :
  Logger Discovery.closed_instance = None ∧
  (run_hooks Demo.heap Discovery.closed_instance
     (modules Discovery.closed_instance)).2 = Ok tt ∧
  [Discovery.EventLoop] !! 0 = Some Discovery.EventLoop ∧
  waits_for_channel (Discovery.EventLoop Discovery.closed_instance)
    Discovery.EventLoop_waits ∧
  (AppInstance_Run Demo.heap Discovery.closed_instance Discovery.MainLoop
     [Discovery.EventLoop] [RunMain 0; RunMain 0; RunCoordinator]).2
    = Crashed ∧
  ∀ schedule r,
    done_indices
      (AppInstance_Run Demo.heap Discovery.closed_instance
         Discovery.MainLoop [Discovery.EventLoop] schedule).1 = [] ∧
    (AppInstance_Run Demo.heap Discovery.closed_instance
       Discovery.MainLoop [Discovery.EventLoop] schedule).2 ≠ Finished r.
Proof.
  split_and!; [reflexivity | exact closed_instance_hooks | reflexivity
              | apply EventLoop_waits_for_channel | by vm_compute |].
  intros schedule r.
  exact (Run_without_logger Demo.heap Discovery.closed_instance
           Discovery.MainLoop [Discovery.EventLoop] schedule 0
           Discovery.EventLoop Discovery.EventLoop_waits r eq_refl
           closed_instance_hooks eq_refl (EventLoop_waits_for_channel _)).
Defined.

(** The configuration of a program that asks for the sensor: logger, bus
    and sensor, once each. *)
Lemma NewAppConfig_modules_witness :
  hooks_keep_modules Demo.heap ∧
  NoDup (Demo.ModuleWithDependencies "logger").1 ∧
  NewAppConfig Demo.heap Demo.ModuleWithDependencies Demo.path_Base
    "demo" ["-test.v"; "-debug"] ["sensor"] = ([], Ok Demo.sensor_config) ∧
  NoDup (Modules Demo.sensor_config) ∧
  ∀ m, m ∈ Modules Demo.sensor_config ↔
       ∃ name, name ∈ ["logger"; "sensor"] ∧
               m ∈ (Demo.ModuleWithDependencies name).1.
Proof.
  assert (NoDup (Demo.ModuleWithDependencies "logger").1) as Hnd
    by (apply NoDup_singleton).
  assert (NewAppConfig Demo.heap Demo.ModuleWithDependencies Demo.path_Base
            "demo" ["-test.v"; "-debug"] ["sensor"]
          = ([], Ok Demo.sensor_config)) as Hconfig by (by vm_compute).
  split_and!; [exact Demo_hooks_keep_modules | exact Hnd | exact Hconfig
              | ..];
    apply (NewAppConfig_modules Demo.heap Demo.ModuleWithDependencies
             Demo.path_Base "demo" ["-test.v"; "-debug"] ["sensor"]
             Demo.sensor_config Demo_hooks_keep_modules Hnd Hconfig).
Defined.

(** A program that asks for the bus, a camera and the sensor. *)
Lemma NewAppConfig_unresolved_name_witness :
  (∀ name, name ∈ ["logger"; "bus"] →
           (Demo.ModuleWithDependencies name).2 = None) ∧
  (Demo.ModuleWithDependencies "camera").2
    = Some (ErrExternal "module not registered: camera") ∧
  NewAppConfig Demo.heap Demo.ModuleWithDependencies Demo.path_Base
    "demo" [] (["bus"] ++ "camera" :: ["sensor"])
    = ([EvStderr (ErrExternal "module not registered: camera")],
       Ok AppConfig_zero) ∧
  ∀ config,
    (NewAppConfig Demo.heap Demo.ModuleWithDependencies Demo.path_Base
       "demo" [] (["bus"] ++ "camera" :: ["sensor"])).2 = Ok config →
    NewAppInstance Demo.heap config = ([], Err ErrAppError).
Proof.
  assert (∀ name, name ∈ ["logger"; "bus"] →
                  (Demo.ModuleWithDependencies name).2 = None) as Hgood.
  { intros name Hin.
    repeat (apply elem_of_cons in Hin as [->|Hin]; [reflexivity|]).
    by apply elem_of_nil in Hin. }
  assert ((Demo.ModuleWithDependencies "camera").2
          = Some (ErrExternal "module not registered: camera")) as Hbad
    by reflexivity.
  split; [exact Hgood|]. split; [exact Hbad|].
  exact (NewAppConfig_unresolved_name Demo.heap Demo.ModuleWithDependencies
           Demo.path_Base "demo" [] ["bus"] ["sensor"] "camera" _
           Hgood Hbad).
Defined.

End MoreSamples.
